(** * sphinx_material: the table-of-contents converter and the page hook

    A shallow embedding of [src/sphinx_material/__init__.py]:
    [_TocVisitor] with its [visit_*] methods, [_get_mkdocs_toc], and the
    [add_html_link] / [reformat_pages] hooks.  The docutils side the visitor
    runs against ([Node.walk], [NodeVisitor.dispatch_visit], [astext]) is
    written out next to it, since the visitor's behaviour is only defined
    through it. *)

From Stdlib Require Import List String Ascii Bool ZArith Lia.
Import ListNotations.
Local Open Scope string_scope.
Local Open Scope Z_scope.
Local Open Scope list_scope.

Set Warnings "-register-all".

(** ** Python values *)

Module Py.

(** The exceptions that can leave the modelled functions. *)
Inductive exn : Set :=
| AttributeError       (* [None.find] in [visit_reference] *)
| NotImplementedError  (* [NodeVisitor.unknown_visit] *)
| ValueError           (* conflicting options in [add_html_link] *)
| NameError            (* an unbound global in [reformat_pages] *)
| FileNotFoundError.   (* [open] of a missing file in [reformat_pages] *)

Inductive result (A : Type) : Type :=
| Ok (a : A)
| Raise (e : exn).
Arguments Ok {A} a.
Arguments Raise {A} e.

Definition bind {A B} (r : result A) (k : A -> result B) : result B :=
  match r with
  | Ok a => k a
  | Raise e => Raise e
  end.

Definition is_ok {A} (r : result A) : bool :=
  match r with Ok _ => true | Raise _ => false end.

(** [s.find(c)] for a one-character needle: the first index, or [-1]. *)
Fixpoint str_find (c : ascii) (s : string) : Z :=
  match s with
  | EmptyString => -1
  | String a s' =>
      if Ascii.eqb a c then 0
      else let r := str_find c s' in
           if r =? -1 then -1 else r + 1
  end.

(** [s.endswith(c)] and [s.startswith(c)] for a one-character [c]. *)
Fixpoint endswith (s : string) (c : ascii) : bool :=
  match s with
  | EmptyString => false
  | String a EmptyString => Ascii.eqb a c
  | String _ s' => endswith s' c
  end.

Definition startswith (s : string) (c : ascii) : bool :=
  match s with
  | EmptyString => false
  | String a _ => Ascii.eqb a c
  end.

(** Truth value of a [str]. *)
Definition nonempty (s : string) : bool :=
  match s with EmptyString => false | _ => true end.

(** [os.path.join(a, b)] (posix). *)
Definition os_path_join (a b : string) : string :=
  if startswith b "/" then b
  else if negb (nonempty a) || endswith a "/" then String.append a b
  else String.append a (String "/" b).

(** [sep.join(parts)] *)
Definition join (sep : string) (parts : list string) : string :=
  String.concat sep parts.

End Py.
Import Py.

Notation "x <- r ;; k" := (Py.bind r (fun x => k))
  (at level 61, r at next level, right associativity).

(** ** The docutils tree *)

(** The node classes the converter meets.  [Text] and [inline] occur below
    references and captions (the rendered title); the visitor has no
    [visit_] method for them. *)
Inductive node : Type :=
| Text (s : string)
| inline (children : list node)
| reference (refuri : option string) (children : list node)
| caption (children : list node)
| bullet_list (iscurrent : bool) (children : list node)
| list_item (iscurrent : bool) (children : list node)
| toctree (children : list node)
| paragraph (children : list node)
| compact_paragraph (children : list node).

(** Induction over the tree with the hypothesis available for every child. *)
Section NodeInduction.
Variable P : node -> Prop.
Hypothesis HText : forall s, P (Text s).
Hypothesis Hinline : forall cs, Forall P cs -> P (inline cs).
Hypothesis Hreference : forall u cs, Forall P cs -> P (reference u cs).
Hypothesis Hcaption : forall cs, Forall P cs -> P (caption cs).
Hypothesis Hbullet_list : forall b cs, Forall P cs -> P (bullet_list b cs).
Hypothesis Hlist_item : forall b cs, Forall P cs -> P (list_item b cs).
Hypothesis Htoctree : forall cs, Forall P cs -> P (toctree cs).
Hypothesis Hparagraph : forall cs, Forall P cs -> P (paragraph cs).
Hypothesis Hcompact : forall cs, Forall P cs -> P (compact_paragraph cs).

Fixpoint node_tree_ind (n : node) : P n :=
  let all := fix all (cs : list node) : Forall P cs :=
    match cs with
    | [] => Forall_nil P
    | c :: cs' => Forall_cons c (node_tree_ind c) (all cs')
    end in
  match n with
  | Text s => HText s
  | inline cs => Hinline cs (all cs)
  | reference u cs => Hreference u cs (all cs)
  | caption cs => Hcaption cs (all cs)
  | bullet_list b cs => Hbullet_list b cs (all cs)
  | list_item b cs => Hlist_item b cs (all cs)
  | toctree cs => Htoctree cs (all cs)
  | paragraph cs => Hparagraph cs (all cs)
  | compact_paragraph cs => Hcompact cs (all cs)
  end.
End NodeInduction.

(** [''.join(text.split(sep))] for a separator [sep] of two characters
    [a] and [b], and of the one character [a]: the occurrences of [sep],
    found from the left, are dropped. *)
Fixpoint drop_pair (a b : ascii) (text : string) : string :=
  match text with
  | EmptyString => EmptyString
  | String x rest =>
      match rest with
      | EmptyString => text
      | String y rest' =>
          if Ascii.eqb x a && Ascii.eqb y b then drop_pair a b rest'
          else String x (drop_pair a b rest)
      end
  end.

Fixpoint drop_char (a : ascii) (text : string) : string :=
  match text with
  | EmptyString => EmptyString
  | String x rest =>
      if Ascii.eqb x a then drop_char a rest
      else String x (drop_char a rest)
  end.

(** [docutils.utils.unescape(text)]: the parser leaves a NUL where the
    source had a backslash escape; a NUL with the blank or the newline
    after it is dropped, then every NUL left. *)
Definition NUL : ascii := "000"%char.

Definition unescape (text : string) : string :=
  drop_char NUL
    (drop_pair NUL "010"%char
       (drop_pair NUL " "%char text)).

(** [Node.astext]: a [Text] is its string unescaped; a [TextElement]
    (inline, reference, caption, paragraph, compact_paragraph)
    concatenates its children; any other [Element] separates them by a
    blank line. *)
Definition child_text_separator : string :=
  String "010"%char (String "010"%char EmptyString).

Fixpoint astext (n : node) : string :=
  match n with
  | Text s => unescape s
  | inline cs | reference _ cs | caption cs
  | paragraph cs | compact_paragraph cs => join "" (map astext cs)
  | bullet_list _ cs | list_item _ cs | toctree cs =>
      join child_text_separator (map astext cs)
  end.

(** Object identity.  [visit_bullet_list] compares two [parent] pointers
    with [is]; a node is identified by its path from the root of the tree
    it lives in (innermost index first), and a parent pointer is a path or
    [None]. *)
Definition node_id : Type := list nat.

Definition same_object (a b : option node_id) : bool :=
  match a, b with
  | None, None => true
  | Some x, Some y => if list_eq_dec Nat.eq_dec x y then true else false
  | _, _ => false
  end.

(** ** The output: one dict per navigation entry *)

Inductive toc_entry : Type :=
  Entry { title : option string;
          url : option string;
          children : list toc_entry;
          active : bool }.

(** ** _TocVisitor *)

(** What the visitor keeps of the caption it remembers: the caption's
    children (for the title) and its [parent] pointer. *)
Record caption_node : Type :=
  { caption_children : list node;
    caption_parent : option node_id }.

Record TocVisitor : Type :=
  { _prev_caption : option caption_node;
    _rendered_title : option string;
    _url : option string;
    _active : bool;
    _children : list toc_entry;
    _exclude_local : bool;
    _local_only : bool }.

(** [_TocVisitor.__init__] *)
Definition new_TocVisitor (exclude_local : bool) : TocVisitor :=
  {| _prev_caption := None;
     _rendered_title := None;
     _url := None;
     _active := false;
     _children := [];
     _exclude_local := exclude_local;
     _local_only := true |}.

Definition set_prev_caption (c : option caption_node) (v : TocVisitor) :=
  {| _prev_caption := c; _rendered_title := _rendered_title v;
     _url := _url v; _active := _active v; _children := _children v;
     _exclude_local := _exclude_local v; _local_only := _local_only v |}.

Definition set_reference (t u : option string) (v : TocVisitor) :=
  {| _prev_caption := _prev_caption v; _rendered_title := t;
     _url := u; _active := _active v; _children := _children v;
     _exclude_local := _exclude_local v; _local_only := _local_only v |}.

Definition set_active (a : bool) (v : TocVisitor) :=
  {| _prev_caption := _prev_caption v; _rendered_title := _rendered_title v;
     _url := _url v; _active := a; _children := _children v;
     _exclude_local := _exclude_local v; _local_only := _local_only v |}.

Definition set_local_only (l : bool) (v : TocVisitor) :=
  {| _prev_caption := _prev_caption v; _rendered_title := _rendered_title v;
     _url := _url v; _active := _active v; _children := _children v;
     _exclude_local := _exclude_local v; _local_only := l |}.

(** [self._children.append(e)] *)
Definition append_child (e : toc_entry) (v : TocVisitor) :=
  {| _prev_caption := _prev_caption v; _rendered_title := _rendered_title v;
     _url := _url v; _active := _active v; _children := _children v ++ [e];
     _exclude_local := _exclude_local v; _local_only := _local_only v |}.

(** How a [visit_] method ends: by returning, or by raising
    [docutils.nodes.SkipChildren]. *)
Inductive flow : Set := Descend | SkipChildren.

(** [_render_title] on a list of nodes. *)
Definition _render_title (nodes : list node) : string :=
  join "" (map astext nodes).

(** [visit_reference]: the url is read with [node.get('refuri')], which is
    [None] when the attribute is missing; [self._url.find] is then only
    evaluated when [_exclude_local] holds. *)
Definition visit_reference (self : TocVisitor)
    (refuri : option string) (children : list node)
  : result (TocVisitor * flow) :=
  let self := set_reference (Some (_render_title children)) refuri self in
  if _exclude_local self then
    match _url self with
    | None => Raise AttributeError
    | Some u =>
        if str_find "#"%char u =? -1
        then Ok (set_local_only false self, SkipChildren)
        else Ok (self, SkipChildren)
    end
  else Ok (self, SkipChildren).

Definition visit_compact_paragraph (self : TocVisitor)
  : result (TocVisitor * flow) := Ok (self, Descend).

Definition visit_toctree (self : TocVisitor)
  : result (TocVisitor * flow) := Ok (self, SkipChildren).

Definition visit_paragraph (self : TocVisitor)
  : result (TocVisitor * flow) := Ok (self, Descend).

Definition visit_caption (self : TocVisitor)
    (parent : option node_id) (children : list node)
  : result (TocVisitor * flow) :=
  Ok (set_prev_caption
        (Some {| caption_children := children; caption_parent := parent |})
        self,
      SkipChildren).

(** [get_result] *)
Definition get_result (self : TocVisitor) : toc_entry :=
  {| title := _rendered_title self;
     url := _url self;
     children := _children self;
     active := _active self |}.

(** [children[0].get('url', None)] guarded by [if children:] *)
Definition first_url (children : list toc_entry) : option string :=
  match children with
  | [] => None
  | c :: _ => url c
  end.

Section VisitWithChildren.
(** The two methods below start a second visitor on (parts of) the node
    they visit.  [walk_children v cs] is [for child in cs: child.walk(v)]
    for the children [cs] of the node being visited. *)
Variable walk_children : TocVisitor -> list node -> result TocVisitor.

(** [visit_bullet_list].  In the grouping branch [node.walk(child_visitor)]
    first dispatches [visit_bullet_list] on the fresh visitor, whose
    [_prev_caption] is [None], so that call returns without effect and
    the walk goes on to the children of [node]. *)
Definition visit_bullet_list (self : TocVisitor)
    (parent : option node_id) (iscurrent : bool) (children : list node)
  : result (TocVisitor * flow) :=
  match _prev_caption self with
  | Some prev =>
      if same_object (caption_parent prev) parent then
        let title := _render_title (caption_children prev) in
        let self := set_prev_caption None self in
        let child_visitor := new_TocVisitor (_exclude_local self) in
        let child_visitor :=
          if iscurrent then set_active true child_visitor
          else child_visitor in
        child_visitor <- walk_children child_visitor children ;;
        let children := _children child_visitor in
        let self :=
          if negb (_local_only child_visitor)
          then set_local_only false self else self in
        let url := first_url children in
        Ok (append_child
              {| title := Some title; url := url;
                 children := children;
                 active := _active child_visitor |} self,
            SkipChildren)
      else Ok (self, Descend)
  | None => Ok (self, Descend)
  end.

(** [visit_list_item] *)
Definition visit_list_item (self : TocVisitor)
    (iscurrent : bool) (children : list node)
  : result (TocVisitor * flow) :=
  let child_visitor := new_TocVisitor (_exclude_local self) in
  let child_visitor :=
    if iscurrent then set_active true child_visitor else child_visitor in
  child_visitor <- walk_children child_visitor children ;;
  let child_result := get_result child_visitor in
  if _exclude_local self && _local_only child_visitor
  then Ok (self, SkipChildren)
  else Ok (append_child child_result (set_local_only false self),
           SkipChildren).
End VisitWithChildren.

(** [NodeVisitor.unknown_visit], reached through [dispatch_visit] for a
    class without a [visit_] method. *)
Definition unknown_visit : result (TocVisitor * flow) :=
  Raise NotImplementedError.

(** ** Node.walk *)

Section WalkNodes.
(** [for child in children: child.walk(visitor)], the children numbered
    from [i]. *)
Variable walk1 : TocVisitor -> nat -> node -> result TocVisitor.

Fixpoint walk_nodes (visitor : TocVisitor) (i : nat) (cs : list node)
  : result TocVisitor :=
  match cs with
  | [] => Ok visitor
  | c :: cs' =>
      visitor <- walk1 visitor i c ;;
      walk_nodes visitor (S i) cs'
  end.
End WalkNodes.

(** What [walk] does once [dispatch_visit] is back. *)
Definition after_visit (r : result (TocVisitor * flow))
    (descend : TocVisitor -> result TocVisitor) : result TocVisitor :=
  match r with
  | Ok (visitor, Descend) => descend visitor
  | Ok (visitor, SkipChildren) => Ok visitor
  | Raise e => Raise e
  end.

(** [n.walk(visitor)] for the node [n] at [self] whose parent pointer is
    [parent]. *)
Fixpoint walk (visitor : TocVisitor) (parent : option node_id)
    (self : node_id) (n : node) {struct n} : result TocVisitor :=
  let kids := fun v cs =>
    walk_nodes (fun v' i c => walk v' (Some self) (i :: self) c) v 0%nat cs in
  match n with
  | Text _ => after_visit unknown_visit (fun v => Ok v)
  | inline cs => after_visit unknown_visit (fun v => kids v cs)
  | reference refuri cs =>
      after_visit (visit_reference visitor refuri cs) (fun v => kids v cs)
  | caption cs =>
      after_visit (visit_caption visitor parent cs) (fun v => kids v cs)
  | bullet_list iscurrent cs =>
      after_visit (visit_bullet_list kids visitor parent iscurrent cs)
                  (fun v => kids v cs)
  | list_item iscurrent cs =>
      after_visit (visit_list_item kids visitor iscurrent cs)
                  (fun v => kids v cs)
  | toctree cs => after_visit (visit_toctree visitor) (fun v => kids v cs)
  | paragraph cs => after_visit (visit_paragraph visitor) (fun v => kids v cs)
  | compact_paragraph cs =>
      after_visit (visit_compact_paragraph visitor) (fun v => kids v cs)
  end.

(** The children loop of [walk] for the node at [self]. *)
Definition walk_kids (self : node_id) (v : TocVisitor) (cs : list node)
  : result TocVisitor :=
  walk_nodes (fun v' i c => walk v' (Some self) (i :: self) c) v 0%nat cs.

(** ** _get_mkdocs_toc *)

(** The [builder] is only handed on to the visitor, which reads it in
    [_render] alone; [_render] is never called. *)
Definition _get_mkdocs_toc_at (parent : option node_id) (self : node_id)
    (toc_node : node) (exclude_local : bool) : result (list toc_entry) :=
  visitor <- walk (new_TocVisitor exclude_local) parent self toc_node ;;
  Ok (_children visitor).

(** The tree handed to the converter is a root: no parent, empty path. *)
Definition _get_mkdocs_toc (toc_node : node) (exclude_local : bool)
  : result (list toc_entry) :=
  _get_mkdocs_toc_at None [] toc_node exclude_local.

(** ** The page hook and the reformatting step *)

Module Hooks.

(** The keys of [html_theme_options] the two functions read, each with
    the default its [.get] gives. *)
Record theme_options : Type :=
  { site_url : string;
    html_minify : bool;
    html_prettify : bool }.

(** The parts of the application object they read and write. *)
Record Sphinx : Type :=
  { html_theme_options : theme_options;
    link_suffix : string;
    outdir : string;
    sitemap_links : list string;
    site_pages : list string }.

Definition append_sitemap_link (l : string) (app : Sphinx) : Sphinx :=
  {| html_theme_options := html_theme_options app;
     link_suffix := link_suffix app; outdir := outdir app;
     sitemap_links := sitemap_links app ++ [l];
     site_pages := site_pages app |}.

Definition append_site_page (p : string) (app : Sphinx) : Sphinx :=
  {| html_theme_options := html_theme_options app;
     link_suffix := link_suffix app; outdir := outdir app;
     sitemap_links := sitemap_links app;
     site_pages := site_pages app ++ [p] |}.

Definition clear_site_pages (app : Sphinx) : Sphinx :=
  {| html_theme_options := html_theme_options app;
     link_suffix := link_suffix app; outdir := outdir app;
     sitemap_links := sitemap_links app;
     site_pages := [] |}.

(** [add_html_link]: the application after the call, and how the call
    ended.  What was appended before a [raise] stays appended. *)
Definition add_html_link (app : Sphinx) (pagename : string)
  : Sphinx * result unit :=
  let base_url := site_url (html_theme_options app) in
  let app :=
    if nonempty base_url then
      let base_url :=
        if negb (endswith base_url "/")
        then String.append base_url "/" else base_url in
      let full_url :=
        String.append (String.append base_url pagename) (link_suffix app) in
      append_sitemap_link full_url app
    else app in
  let minify := html_minify (html_theme_options app) in
  let prettify := html_prettify (html_theme_options app) in
  if minify && prettify then (app, Raise ValueError)
  else if minify || prettify then
    (append_site_page
       (os_path_join (outdir app) (String.append pagename ".html")) app,
     Ok tt)
  else (app, Ok tt).

(** The loop of [reformat_pages] over the pages left: the files it
    rewrote, in order, and how it ended.  [is_file page] tells whether
    [open(page, "r")] finds the file; if not it raises
    [FileNotFoundError], and the files rewritten so far stay rewritten.
    In the branch that prettifies, the name [BeautifulSoup] is read,
    which the module never binds: the page raises [NameError] before it
    is written. *)
Fixpoint reformat_loop (is_file : string -> bool) (minify : bool)
    (pages : list string) : list string * result unit :=
  match pages with
  | [] => ([], Ok tt)
  | page :: pages' =>
      if is_file page then
        if minify then
          let (written, r) := reformat_loop is_file minify pages' in
          (page :: written, r)
        else ([], Raise NameError)
      else ([], Raise FileNotFoundError)
  end.

(** [reformat_pages]: the application after the call, the files it
    rewrote, and how the call ended.  [is_file] is the file system the
    call finds (a file that is there is taken to be readable and
    writable, and the import of the minifier to succeed); [site_pages]
    is emptied only once the loop is through. *)
Definition reformat_pages (is_file : string -> bool) (app : Sphinx)
    (exception : option exn) : Sphinx * list string * result unit :=
  match exception, site_pages app with
  | Some _, _ => (app, [], Ok tt)
  | None, [] => (app, [], Ok tt)
  | None, _ :: _ =>
      match reformat_loop is_file (html_minify (html_theme_options app))
              (site_pages app) with
      | (written, Ok _) => (clear_site_pages app, written, Ok tt)
      | (written, Raise e) => (app, written, Raise e)
      end
  end.

(** What [setup] puts on the application: two empty lists.  The options,
    the link suffix and the output directory are the builder's. *)
Definition setup (options : theme_options) (suffix dir : string) : Sphinx :=
  {| html_theme_options := options;
     link_suffix := suffix; outdir := dir;
     sitemap_links := []; site_pages := [] |}.

(** The hook called for the pages [pagenames] in turn, the calls that
    raise included. *)
Definition add_html_links (app : Sphinx) (pagenames : list string)
  : Sphinx :=
  fold_left (fun a p => fst (add_html_link a p)) pagenames app.

End Hooks.

(** ** Vocabulary of the properties *)

(** A walk never touches [_exclude_local] or [_active] of the visitor it
    is given, and only ever appends to [_children]. *)
Definition extends (v v' : TocVisitor) : Prop :=
  _exclude_local v' = _exclude_local v /\
  _active v' = _active v /\
  exists es, _children v' = _children v ++ es.

(** Two walks of one tree placed at two different roots [r1] and [r2]:
    the pointers the visitors hold correspond position by position. *)
Definition id_rel (r1 r2 : node_id) (x1 x2 : option node_id) : Prop :=
  exists s, x1 = Some (s ++ r1) /\ x2 = Some (s ++ r2).

Definition caption_rel (r1 r2 : node_id) (c1 c2 : option caption_node)
  : Prop :=
  match c1, c2 with
  | None, None => True
  | Some a, Some b =>
      caption_children a = caption_children b /\
      id_rel r1 r2 (caption_parent a) (caption_parent b)
  | _, _ => False
  end.

(** Everything a visitor has accumulated, the pending caption apart. *)
Definition accumulated (v : TocVisitor) :=
  (_rendered_title v, _url v, _active v, _children v,
   _exclude_local v, _local_only v).

Definition visitor_rel (r1 r2 : node_id) (v1 v2 : TocVisitor) : Prop :=
  caption_rel r1 r2 (_prev_caption v1) (_prev_caption v2) /\
  accumulated v1 = accumulated v2.

Definition result_rel (r1 r2 : node_id) (x1 x2 : result TocVisitor) : Prop :=
  match x1, x2 with
  | Ok a, Ok b => visitor_rel r1 r2 a b
  | Raise e1, Raise e2 => e1 = e2
  | _, _ => False
  end.

(** Two results that agree on everything but the pending caption. *)
Definition same_outcome (x1 x2 : result TocVisitor) : Prop :=
  match x1, x2 with
  | Ok a, Ok b => accumulated a = accumulated b
  | Raise e1, Raise e2 => e1 = e2
  | _, _ => False
  end.

(** The nodes a walk dispatches on are those not below a reference, a
    caption or a toctree.  [visitable e n]: every such node of [n] has a
    [visit_] method, and, when [e] holds, every such reference has a url. *)
Fixpoint visitable (exclude_local : bool) (n : node) : bool :=
  match n with
  | Text _ | inline _ => false
  | reference refuri _ =>
      if exclude_local
      then match refuri with Some _ => true | None => false end
      else true
  | caption _ | toctree _ => true
  | bullet_list _ cs | list_item _ cs | paragraph cs | compact_paragraph cs =>
      forallb (visitable exclude_local) cs
  end.

Definition is_list_item (n : node) : bool :=
  match n with list_item _ _ => true | _ => false end.

(** What [visit_list_item] does to the visitor once the entries [es] of
    the item (none, or one) are known. *)
Definition absorb (es : list toc_entry) (v : TocVisitor) : TocVisitor :=
  match es with
  | [] => v
  | _ :: _ =>
      {| _prev_caption := _prev_caption v;
         _rendered_title := _rendered_title v;
         _url := _url v; _active := _active v;
         _children := _children v ++ es;
         _exclude_local := _exclude_local v; _local_only := false |}
  end.

(** [links_page n]: some reference that a walk of [n] dispatches on has a
    url without ['#']. *)
Fixpoint links_page (n : node) : bool :=
  match n with
  | reference (Some u) _ => str_find "#" u =? -1
  | bullet_list _ cs | list_item _ cs | paragraph cs | compact_paragraph cs =>
      existsb links_page cs
  | _ => false
  end.

(** A visitor as [visit_list_item] and [visit_bullet_list] start it. *)
Definition child_visitor_for (exclude_local iscurrent : bool) : TocVisitor :=
  if iscurrent then set_active true (new_TocVisitor exclude_local)
  else new_TocVisitor exclude_local.

(** The entry [visit_bullet_list] makes of the caption's children [cap]
    and the child visitor [cv] that walked the list, and the visitor after
    it is appended. *)
Definition group_entry (cap : list node) (cv : TocVisitor) : toc_entry :=
  {| title := Some (_render_title cap);
     url := first_url (_children cv);
     children := _children cv;
     active := _active cv |}.

Definition close_group (cap : list node) (cv v : TocVisitor) : TocVisitor :=
  append_child (group_entry cap cv)
    (if negb (_local_only cv)
     then set_local_only false (set_prev_caption None v)
     else set_prev_caption None v).

(** The loop over the children of the node at [self], from child [i] on. *)
Definition walk_siblings (self : node_id) (v : TocVisitor) (i : nat)
    (cs : list node) : result TocVisitor :=
  walk_nodes (fun v' i c => walk v' (Some self) (i :: self) c) v i cs.

(** A table-of-contents item as Sphinx builds it: a list item holding a
    compact paragraph with one reference. *)
Definition toc_item (u t : string) : node :=
  list_item false [compact_paragraph [reference (Some u) [Text t]]].

Definition toc_leaf (u t : string) : toc_entry :=
  {| title := Some (_render_title [Text t]); url := Some u;
     children := []; active := false |}.

(** A caption followed by a list of such items, under one parent. *)
Definition toc_group (cap : string) (iscurrent : bool)
    (items : list (string * string)) : node :=
  compact_paragraph
    [caption [Text cap];
     bullet_list iscurrent (map (fun ut => toc_item (fst ut) (snd ut)) items)].

(** The entries such items convert to: all of them, or, when local links
    are excluded, those whose url has no ['#']. *)
Definition toc_leaves (exclude_local : bool) (items : list (string * string))
  : list toc_entry :=
  flat_map
    (fun ut =>
       if exclude_local && negb (str_find "#" (fst ut) =? -1) then []
       else [toc_leaf (fst ut) (snd ut)])
    items.

(** The trees the properties below are tried on. *)
Definition mixed_group : node :=
  toc_group "Chapter 1" false [("page2.html#x", "X"); ("#a", "A")].

Definition missing_url_tree : node :=
  bullet_list false
    [list_item false [compact_paragraph [reference None [Text "A"]]]].


Definition sections_group : node :=
  toc_group "Chapter 1" false
    [("index.html#intro", "Intro"); ("index.html#usage", "Usage")].

(** [item_converts e it es]: converted on its own, the list item [it]
    gives the entries [es]: none when local links are excluded and the
    item links to no page, one otherwise. *)
Definition item_converts (exclude_local : bool) (it : node)
    (es : list toc_entry) : Prop :=
  _get_mkdocs_toc it exclude_local = Ok es /\
  List.length es
  = if exclude_local && negb (links_page it) then 0%nat else 1%nat.

(** A reference as a visitor sees it: its url and its children. *)
Definition seen_reference : Type := (option string * list node)%type.

(** The parent pointer of the caption a visitor remembers, if any. *)
Definition pending_caption : Type := option (option node_id).

Section DispatchedNodes.
Variable dispatched1 :
  pending_caption -> nat -> node -> list seen_reference * pending_caption.

Fixpoint dispatched_nodes (pending : pending_caption) (i : nat)
    (cs : list node) : list seen_reference * pending_caption :=
  match cs with
  | [] => ([], pending)
  | c :: cs' =>
      let (r1, p1) := dispatched1 pending i c in
      let (r2, p2) := dispatched_nodes p1 (S i) cs' in
      (r1 ++ r2, p2)
  end.
End DispatchedNodes.

(** [dispatched pending parent self n]: the references one visitor is
    dispatched on, in order, while it walks [n], and the caption it
    remembers afterwards.  The visitor does not descend below a reference,
    a caption, a toctree, a list item, or a bullet list it groups under
    the pending caption: the last two are walked by visitors of their
    own. *)
Fixpoint dispatched (pending : pending_caption) (parent : option node_id)
    (self : node_id) (n : node) {struct n}
  : list seen_reference * pending_caption :=
  let kids := fun p cs =>
    dispatched_nodes
      (fun p' i c => dispatched p' (Some self) (i :: self) c) p 0%nat cs in
  match n with
  | reference u t => ([(u, t)], pending)
  | caption _ => ([], Some parent)
  | bullet_list _ cs =>
      match pending with
      | Some p => if same_object p parent then ([], None) else kids pending cs
      | None => kids pending cs
      end
  | paragraph cs | compact_paragraph cs => kids pending cs
  | Text _ | inline _ | toctree _ | list_item _ _ => ([], pending)
  end.

(** The same for the children [cs] of the node at [self], from child [i]
    on. *)
Definition dispatched_siblings (pending : pending_caption) (self : node_id)
    (i : nat) (cs : list node) : list seen_reference * pending_caption :=
  dispatched_nodes
    (fun p' i c => dispatched p' (Some self) (i :: self) c) pending i cs.

(** The last reference the visitor of a list item is dispatched on, [cs]
    being the item's children (numbered with the item as the root; where
    the item lives makes no difference to its walk). *)
Definition last_dispatched (cs : list node) : option seen_reference :=
  last (map Some (fst (dispatched_siblings None [] 0 cs))) None.

(** The title and url a visitor holds, and what they are after the
    references [rs]. *)
Definition held (v : TocVisitor) : option string * option string :=
  (_rendered_title v, _url v).

Definition hold (h : option string * option string) (r : seen_reference)
  : option string * option string :=
  (Some (_render_title (snd r)), fst r).

Definition pending_of (v : TocVisitor) : pending_caption :=
  option_map caption_parent (_prev_caption v).

Definition two_references_item : node :=
  list_item false
    [compact_paragraph
       [reference (Some "first.html") [Text "First"];
        reference (Some "second.html") [Text "Second"]];
     bullet_list false [toc_item "below.html" "Below"]].

(** Options with both reformatting modes asked for, and with one. *)
Definition conflicting_options : Hooks.theme_options :=
  {| Hooks.site_url := "https://example.org/docs";
     Hooks.html_minify := true; Hooks.html_prettify := true |}.

Definition minify_options : Hooks.theme_options :=
  {| Hooks.site_url := "";
     Hooks.html_minify := true; Hooks.html_prettify := false |}.



Definition is_reference (n : node) : bool :=
  match n with reference _ _ => true | _ => false end.

(** A list item as Sphinx builds it for a page with sections or
    sub-pages: the references of the item, then the nested list. *)
Definition nested_item (iscurrent : bool) (refs : list node)
    (below_current : bool) (items : list node) : node :=
  list_item iscurrent
    [compact_paragraph refs; bullet_list below_current items].

(** ** Tactics *)

(** Taking apart and putting together [visitor_rel]. *)
Ltac acc_inv H :=
  let Hc := fresh "Hcap" in
  let Ha := fresh "Hacc" in
  destruct H as [Hc Ha]; unfold accumulated in Ha; inversion Ha; clear Ha.

Ltac acc_solve :=
  split; [simpl; auto | unfold accumulated; simpl; congruence].

(** ** Vocabulary of the further properties *)

(** [clear_toctrees n]: [n] with the children of every toctree a walk
    dispatches on taken away. *)
Fixpoint clear_toctrees (n : node) : node :=
  match n with
  | toctree _ => toctree []
  | bullet_list b cs => bullet_list b (map clear_toctrees cs)
  | list_item b cs => list_item b (map clear_toctrees cs)
  | paragraph cs => paragraph (map clear_toctrees cs)
  | compact_paragraph cs => compact_paragraph (map clear_toctrees cs)
  | Text _ | inline _ | reference _ _ | caption _ => n
  end.

(** [entry_pruned e e']: [e] is [e'] with entries taken out below it; the
    title and the flag are those of [e'], the url is that of [e'] or, as
    for a group, that of the first child left.  [forest_pruned es es']:
    [es] is [es'] with entries taken out, at any depth, the order kept. *)
Inductive entry_pruned : toc_entry -> toc_entry -> Prop :=
| entry_pruned_intro t u u' a cs cs' :
    forest_pruned cs cs' ->
    u = u' \/ u = first_url cs ->
    entry_pruned {| title := t; url := u; children := cs; active := a |}
                 {| title := t; url := u'; children := cs'; active := a |}
with forest_pruned : list toc_entry -> list toc_entry -> Prop :=
| forest_pruned_nil : forest_pruned [] []
| forest_pruned_drop e' es es' :
    forest_pruned es es' -> forest_pruned es (e' :: es')
| forest_pruned_keep e e' es es' :
    entry_pruned e e' -> forest_pruned es es' ->
    forest_pruned (e :: es) (e' :: es').

(** A visitor that excludes local links against one that does not, at the
    same point of the same walk. *)
Definition prunes (vt vf : TocVisitor) : Prop :=
  _exclude_local vt = true /\
  _exclude_local vf = false /\
  _prev_caption vt = _prev_caption vf /\
  _rendered_title vt = _rendered_title vf /\
  _url vt = _url vf /\
  _active vt = _active vf /\
  forest_pruned (_children vt) (_children vf).

(** The nodes whose visit leaves the caption a visitor remembers alone. *)
Definition keeps_caption (n : node) : bool :=
  match n with
  | reference _ _ | toctree _ | list_item _ _ => true
  | _ => false
  end.

(** The entries of a forest, at all depths. *)
Fixpoint count_entries (e : toc_entry) : nat :=
  S (fold_right (fun c m => (count_entries c + m)%nat) 0%nat (children e)).

Definition count_forest (es : list toc_entry) : nat :=
  fold_right (fun c m => (count_entries c + m)%nat) 0%nat es.

(** The list items of a tree that some visitor is dispatched on. *)
Fixpoint count_items (n : node) : nat :=
  match n with
  | list_item _ cs =>
      S (fold_right (fun c m => (count_items c + m)%nat) 0%nat cs)
  | bullet_list _ cs | paragraph cs | compact_paragraph cs =>
      fold_right (fun c m => (count_items c + m)%nat) 0%nat cs
  | _ => 0%nat
  end.

(** No caption among the nodes a visitor is dispatched on. *)
Fixpoint no_caption (n : node) : bool :=
  match n with
  | caption _ => false
  | bullet_list _ cs | list_item _ cs | paragraph cs | compact_paragraph cs =>
      forallb no_caption cs
  | _ => true
  end.

Definition nested_sections_tree : node :=
  bullet_list false
    [list_item false
       [compact_paragraph [reference (Some "#top") [Text "Page"]];
        bullet_list false
          [toc_item "#one" "One";
           list_item false
             [compact_paragraph [reference (Some "#two") [Text "Two"]];
              bullet_list false [toc_item "#deep" "Deep"]]]]].

(** ** _strip_fragment and _is_child_local *)

(** The first [n] characters of [s], or all of [s] when it has fewer. *)
Fixpoint str_take (n : nat) (s : string) : string :=
  match n, s with
  | S n', String a s' => String a (str_take n' s')
  | _, _ => EmptyString
  end.

(** The slice [s[:k]]: a negative [k] counts from the end. *)
Definition slice_to (s : string) (k : Z) : string :=
  if k <? 0
  then str_take (Z.to_nat (Z.of_nat (String.length s) + k)) s
  else str_take (Z.to_nat k) s.

(** [_strip_fragment] *)
Definition _strip_fragment (url : string) : string :=
  let fragment_start := str_find "#" url in
  if fragment_start =? -1 then url
  else slice_to url fragment_start.

(** Truth value of an optional [str]: [None] and [''] are false. *)
Definition truthy (s : option string) : bool :=
  match s with
  | Some s => nonempty s
  | None => false
  end.

(** [_TocVisitor._is_child_local]; [child['url']] is the entry's url.
    Past the guard both urls are strings. *)
Definition _is_child_local (self : TocVisitor) (child : toc_entry) : bool :=
  if negb (truthy (_url self)) || negb (truthy (url child)) then false
  else
    match _url self, url child with
    | Some su, Some cu => String.eqb (_strip_fragment su) (_strip_fragment cu)
    | _, _ => false
    end.

(** A url made of the part before the fragment and the fragment. *)
Definition with_fragment (base frag : string) : string :=
  String.append base (String "#" frag).

(** ** create_sitemap *)

(** An [xml.etree.ElementTree.Element]: tag, attributes, text, children. *)
Inductive Element : Type :=
  mkElement (tag : string) (attrib : list (string * string))
            (text : option string) (subelements : list Element).

Definition clear_sitemap_links (app : Hooks.Sphinx) : Hooks.Sphinx :=
  {| Hooks.html_theme_options := Hooks.html_theme_options app;
     Hooks.link_suffix := Hooks.link_suffix app;
     Hooks.outdir := Hooks.outdir app;
     Hooks.sitemap_links := [];
     Hooks.site_pages := Hooks.site_pages app |}.

Definition is_some {A} (o : option A) : bool :=
  match o with Some _ => true | None => false end.

Definition is_empty {A} (l : list A) : bool :=
  match l with [] => true | _ :: _ => false end.

(** The [url] element [create_sitemap] appends for one link. *)
Definition url_element (link : string) : Element :=
  mkElement "url" [] None [mkElement "loc" [] (Some link) []].

(** [create_sitemap]: the application after the call, and the file it
    wrote (name and root element), if any.  The list is emptied before
    the file is written; writing is taken to succeed. *)
Definition create_sitemap (app : Hooks.Sphinx) (exception : option exn)
  : Hooks.Sphinx * option (string * Element) :=
  if negb (nonempty (Hooks.site_url (Hooks.html_theme_options app)))
     || is_some exception
     || is_empty (Hooks.sitemap_links app)
  then (app, None)
  else
    let filename := String.append (Hooks.outdir app) "/sitemap.xml" in
    let root :=
      mkElement "urlset"
        [("xmlns", "http://www.sitemaps.org/schemas/sitemap/0.9")]
        None
        (map url_element (Hooks.sitemap_links app)) in
    (clear_sitemap_links app, Some (filename, root)).

(** The link of a page in the sitemap: the site url, a ['/'] unless it
    ends with one, the page name and the builder's suffix. *)
Definition page_link (site_url suffix pagename : string) : string :=
  String.append
    (String.append
       (if endswith site_url "/" then site_url
        else String.append site_url "/")
       pagename)
    suffix.

(** The file of a page in the output directory. *)
Definition page_file (dir pagename : string) : string :=
  os_path_join dir (String.append pagename ".html").

Definition prettify_options : Hooks.theme_options :=
  {| Hooks.site_url := "https://example.org/docs/";
     Hooks.html_minify := false; Hooks.html_prettify := true |}.

(** ** Strings in html_page_context and CustomHTMLTranslator *)

(** [s.count(c)] for a one-character [c]. *)
Fixpoint str_count (c : ascii) (s : string) : nat :=
  match s with
  | EmptyString => 0%nat
  | String a s' =>
      if Ascii.eqb a c then S (str_count c s') else str_count c s'
  end.

(** [s.split(c)] for a one-character [c]: never an empty list. *)
Fixpoint str_split (c : ascii) (s : string) : list string :=
  match s with
  | EmptyString => [EmptyString]
  | String a s' =>
      if Ascii.eqb a c then EmptyString :: str_split c s'
      else match str_split c s' with
           | h :: t => String a h :: t
           | [] => [String a EmptyString]
           end
  end.

(** [html_page_context], the value it stores under [base_url]:
    ['/'.join('..' for _ in range(num_slashes))], or ['.'] for a page at
    the top. *)
Definition base_url (pagename : string) : string :=
  let num_slashes := str_count "/" pagename in
  if Nat.eqb num_slashes 0 then "."
  else join "/" (repeat ".." num_slashes).

(** [CustomHTMLTranslator.__init__], the value it stores in
    [settings.table_style]. *)
Definition table_style_with_data (table_style : string) : string :=
  join "," (str_split "," table_style ++ ["data"]).

(** ** dict_merge *)

(** The Python values of a configuration: a [dict] keeps its items in
    insertion order; its keys are strings.  The mappings [dict_merge]
    meets are taken to be dicts ([collections.Mapping] being their
    abstract base class, in the Python versions that still have it under
    that name). *)
Inductive pyvalue : Type :=
| PyNone
| PyBool (b : bool)
| PyInt (z : Z)
| PyStr (s : string)
| PyList (items : list pyvalue)
| PyDict (items : list (string * pyvalue)).

Definition dict : Type := list (string * pyvalue).

Definition keys (d : dict) : list string := map fst d.

(** [d.get(k)], [None] standing for a missing key. *)
Fixpoint dict_get (k : string) (d : dict) : option pyvalue :=
  match d with
  | [] => None
  | (k', v) :: d' => if String.eqb k k' then Some v else dict_get k d'
  end.

(** [d[k] = v]: in place for a key the dict has, at the end otherwise. *)
Fixpoint dict_set (k : string) (v : pyvalue) (d : dict) : dict :=
  match d with
  | [] => [(k, v)]
  | (k', v') :: d' =>
      if String.eqb k k' then (k', v) :: d'
      else (k', v') :: dict_set k v d'
  end.

Section DictMergeLoops.
(** [merge dr dv] stands for the nested call [dict_merge(result[k], v)]. *)
Variable merge : dict -> dict -> option dict.

(** The body of the inner loop, for the item [(k, v)]. *)
Definition merge_item (result : option dict) (kv : string * pyvalue)
  : option dict :=
  match result with
  | None => None
  | Some result =>
      match snd kv, dict_get (fst kv) result with
      | PyDict dv, Some (PyDict dr) =>
          match merge dr dv with
          | Some m => Some (dict_set (fst kv) (PyDict m) result)
          | None => None
          end
      | v, _ => Some (dict_set (fst kv) v result)
      end
  end.

(** [for k, v in d.items(): ...] *)
Definition merge_dict (result : option dict) (d : dict) : option dict :=
  fold_left merge_item d result.

(** [for d in dicts: ...] *)
Definition merge_dicts (result : option dict) (dicts : list dict)
  : option dict :=
  fold_left merge_dict dicts result.
End DictMergeLoops.

(** [dict_merge] with at most [depth] calls nested in one another; [None]
    when a call beyond that would be made. *)
Fixpoint dict_merge_within (depth : nat) (dicts : list dict) : option dict :=
  match depth with
  | O => None
  | S depth' =>
      merge_dicts (fun dr dv => dict_merge_within depth' [dr; dv])
                  (Some []) dicts
  end.

(** How deep dicts are nested in a value, in a dict, in a list of dicts. *)
Fixpoint value_depth (v : pyvalue) : nat :=
  match v with
  | PyDict items =>
      S (fold_right (fun kv m => Nat.max (value_depth (snd kv)) m) 0%nat items)
  | _ => 0%nat
  end.

Definition dict_depth (d : dict) : nat :=
  fold_right (fun kv m => Nat.max (value_depth (snd kv)) m) 0%nat d.

Definition dicts_depth (dicts : list dict) : nat :=
  fold_right (fun d m => Nat.max (dict_depth d) m) 0%nat dicts.

(** [dict_merge], given its dicts as a list: the nested calls never
    outnumber the nesting of the arguments, so this bound is never met. *)
Definition dict_merge (dicts : list dict) : dict :=
  match dict_merge_within (S (dicts_depth dicts)) dicts with
  | Some result => result
  | None => []
  end.

(** [DEFAULT_THEME_OPTIONS] *)
Definition DEFAULT_THEME_OPTIONS : dict :=
  [("features", PyList []);
   ("font", PyDict [("text", PyStr "Roboto"); ("code", PyStr "Roboto Mono")]);
   ("plugins", PyDict [("search", PyDict [])]);
   ("globaltoc_depth", PyInt (-1));
   ("globaltoc_collapse", PyBool true);
   ("globaltoc_includehidden", PyBool true)].

(** Options as a project may give them. *)
Definition user_theme_options : dict :=
  [("font", PyDict [("text", PyStr "Inter")]);
   ("globaltoc_depth", PyInt 2);
   ("repo_url", PyStr "https://example.org/repo")].

(** The nested call as the loops see it once it is known to return. *)
Definition merge_pair (dr dv : dict) : option dict :=
  Some (dict_merge [dr; dv]).

(** The value the loop body stores under [k] for the item [(k, v)] when
    the result so far is [result]. *)
Definition merged_value (result : dict) (k : string) (v : pyvalue)
  : pyvalue :=
  match v, dict_get k result with
  | PyDict dv, Some (PyDict dr) => PyDict (dict_merge [dr; dv])
  | _, _ => v
  end.

(** A nested call that returns on dicts nested less than [D] deep, with a
    result nested less than [D] deep. *)
Definition returns_below (D : nat) (merge : dict -> dict -> option dict)
  : Prop :=
  forall dr dv,
    (S (dict_depth dr) <= D)%nat -> (S (dict_depth dv) <= D)%nat ->
    exists m, merge dr dv = Some m /\ (S (dict_depth m) <= D)%nat.

Definition agree_below (D : nat) (m1 m2 : dict -> dict -> option dict)
  : Prop :=
  forall dr dv,
    (S (dict_depth dr) <= D)%nat -> (S (dict_depth dv) <= D)%nat ->
    m1 dr dv = m2 dr dv.

(** The inner loop with the nested call replaced by its result. *)
Definition merge_into (result d : dict) : dict :=
  fold_left
    (fun r kv => dict_set (fst kv) (merged_value r (fst kv) (snd kv)) r)
    d result.

(** ** html_page_context: the options it reads and the page's toc *)

(** [d.get(k, default)] *)
Definition dict_get_default (k : string) (default : pyvalue) (d : dict)
  : pyvalue :=
  match dict_get k d with
  | Some v => v
  | None => default
  end.

(** [html_page_context], the three options it hands to
    [get_toctree_for] ([collapse], [includehidden], [maxdepth]), read
    from the configured options merged over the defaults. *)
Definition toctree_options (html_theme_options : dict)
  : pyvalue * pyvalue * pyvalue :=
  let theme_options :=
    dict_merge [DEFAULT_THEME_OPTIONS; html_theme_options] in
  (dict_get_default "globaltoc_collapse" (PyBool false) theme_options,
   dict_get_default "globaltoc_includehidden" (PyBool true) theme_options,
   dict_get_default "globaltoc_depth" (PyInt (-1)) theme_options).

(** [html_page_context], the value it stores under [page['toc']]: the
    local toc, or the children of its only entry. *)
Definition page_toc (local_toc_node : node) : result (list toc_entry) :=
  local_toc <- _get_mkdocs_toc local_toc_node false ;;
  Ok (match local_toc with
      | [only] => children only
      | _ => local_toc
      end).

(** Two visitors that differ at most in their [_active] flag. *)
Definition same_but_active (v1 v2 : TocVisitor) : Prop :=
  _prev_caption v1 = _prev_caption v2 /\
  _rendered_title v1 = _rendered_title v2 /\
  _url v1 = _url v2 /\
  _children v1 = _children v2 /\
  _exclude_local v1 = _exclude_local v2 /\
  _local_only v1 = _local_only v2.

Definition same_result_but_active (x1 x2 : result TocVisitor) : Prop :=
  match x1, x2 with
  | Ok a, Ok b => same_but_active a b
  | Raise e1, Raise e2 => e1 = e2
  | _, _ => False
  end.

(** * Properties of the walk *)

(** ** Unfolding *)

Lemma walk_kids_eq self v cs :
  walk_kids self v cs
  = walk_nodes (fun v' i c => walk v' (Some self) (i :: self) c) v 0%nat cs.
Proof. reflexivity. Qed.

Lemma walk_list_item_eq v parent self cur cs :
  walk v parent self (list_item cur cs)
  = after_visit (visit_list_item (walk_kids self) v cur cs)
                (fun v' => walk_kids self v' cs).
Proof. reflexivity. Qed.

Lemma walk_bullet_list_eq v parent self cur cs :
  walk v parent self (bullet_list cur cs)
  = after_visit (visit_bullet_list (walk_kids self) v parent cur cs)
                (fun v' => walk_kids self v' cs).
Proof. reflexivity. Qed.

(** The grouping branch of [visit_bullet_list] walks the list with a fresh
    visitor; on a visitor without pending caption that walk is the walk of
    the list's children, which is what the model of the branch runs. *)
Lemma walk_bullet_list_no_caption v parent self cur cs :
  _prev_caption v = None ->
  walk v parent self (bullet_list cur cs) = walk_kids self v cs.
Proof.
  intros H. rewrite walk_bullet_list_eq. unfold visit_bullet_list.
  rewrite H. reflexivity.
Qed.

Section WalkNodesFacts.
Variable w : TocVisitor -> nat -> node -> result TocVisitor.

Lemma walk_nodes_app l1 : forall l2 v i,
  walk_nodes w v i (l1 ++ l2)
  = (v1 <- walk_nodes w v i l1 ;; walk_nodes w v1 (i + List.length l1)%nat l2).
Proof.
  induction l1 as [|c l1 IH]; intros l2 v i; simpl.
  - now rewrite Nat.add_0_r.
  - destruct (w v i c) as [v1|e]; simpl; [|reflexivity].
    rewrite IH. now rewrite Nat.add_succ_r.
Qed.

Lemma walk_nodes_cons c cs v i :
  walk_nodes w v i (c :: cs)
  = (v1 <- w v i c ;; walk_nodes w v1 (S i) cs).
Proof. reflexivity. Qed.
End WalkNodesFacts.

(** ** What a walk leaves alone *)

Lemma extends_refl v : extends v v.
Proof. repeat split. exists []. now rewrite app_nil_r. Qed.

Lemma extends_trans a b c : extends a b -> extends b c -> extends a c.
Proof.
  intros (E1 & A1 & es1 & C1) (E2 & A2 & es2 & C2).
  repeat split; try congruence.
  exists (es1 ++ es2). rewrite C2, C1. now rewrite app_assoc.
Qed.

Lemma walk_nodes_extends w cs :
  Forall (fun c => forall v i v', w v i c = Ok v' -> extends v v') cs ->
  forall v i v', walk_nodes w v i cs = Ok v' -> extends v v'.
Proof.
  induction 1 as [|c cs Hc _ IH]; intros v i v' H; simpl in H.
  - inversion H; subst. apply extends_refl.
  - destruct (w v i c) as [v1|e] eqn:E; simpl in H; [|discriminate].
    eapply extends_trans; eauto.
Qed.

Lemma walk_extends n : forall v parent self v',
  walk v parent self n = Ok v' -> extends v v'.
Proof.
  induction n as [s|cs IH|u cs IH|cs IH|b cs IH|b cs IH|cs IH|cs IH|cs IH]
    using node_tree_ind; intros v parent self v' H.
  - discriminate.
  - discriminate.
  - simpl in H. unfold visit_reference in H. simpl in H.
    destruct (_exclude_local v) eqn:E.
    + destruct u as [u|]; [|discriminate].
      destruct (str_find "#" u =? -1); inversion H; subst;
        repeat split; simpl; auto; exists []; now rewrite app_nil_r.
    + inversion H; subst.
      repeat split; simpl; auto; exists []; now rewrite app_nil_r.
  - simpl in H. inversion H; subst.
    repeat split; simpl; auto; exists []; now rewrite app_nil_r.
  - rewrite walk_bullet_list_eq in H. unfold visit_bullet_list in H.
    assert (K : forall v v', walk_kids self v cs = Ok v' -> extends v v').
    { intros a a'. apply walk_nodes_extends.
      eapply Forall_impl; [|exact IH]. intros c Hc x i x'. apply Hc. }
    destruct (_prev_caption v) as [prev|] eqn:P; [|now apply K].
    destruct (same_object (caption_parent prev) parent); [|now apply K].
    simpl in H.
    destruct (walk_kids self _ cs) as [cv|e] eqn:W; simpl in H;
      [|discriminate].
    inversion H; subst.
    destruct (negb (_local_only cv)); repeat split; simpl; auto;
      eexists; reflexivity.
  - rewrite walk_list_item_eq in H. unfold visit_list_item in H.
    destruct (walk_kids self _ cs) as [cv|e] eqn:W; simpl in H;
      [|discriminate].
    destruct (_exclude_local v && _local_only cv); inversion H; subst.
    + apply extends_refl.
    + repeat split; simpl; auto. eexists; reflexivity.
  - simpl in H. inversion H; subst. apply extends_refl.
  - simpl in H. revert H. apply walk_nodes_extends.
    eapply Forall_impl; [|exact IH]. intros c Hc x i x'. apply Hc.
  - simpl in H. revert H. apply walk_nodes_extends.
    eapply Forall_impl; [|exact IH]. intros c Hc x i x'. apply Hc.
Qed.

Lemma walk_kids_extends self cs v v' :
  walk_kids self v cs = Ok v' -> extends v v'.
Proof.
  apply walk_nodes_extends. apply Forall_forall.
  intros c _ x i x'. apply walk_extends.
Qed.

(** ** Independence of where the tree lives *)

Lemma same_object_rel r1 r2 sp x1 x2 :
  id_rel r1 r2 x1 x2 ->
  same_object x1 (Some (sp ++ r1)) = same_object x2 (Some (sp ++ r2)).
Proof.
  intros (s & -> & ->). simpl.
  destruct (list_eq_dec Nat.eq_dec (s ++ r1) (sp ++ r1)) as [E1|N1];
    destruct (list_eq_dec Nat.eq_dec (s ++ r2) (sp ++ r2)) as [E2|N2];
    auto.
  - apply app_inv_tail in E1. subst. contradiction.
  - apply app_inv_tail in E2. subst. contradiction.
Qed.

Lemma visitor_rel_fresh r1 r2 (e b : bool) :
  visitor_rel r1 r2
    (if b then set_active true (new_TocVisitor e) else new_TocVisitor e)
    (if b then set_active true (new_TocVisitor e) else new_TocVisitor e).
Proof. destruct b; split; simpl; auto. Qed.

Lemma walk_nodes_rel r1 r2 w1 w2 cs :
  Forall (fun c => forall v1 v2 i, visitor_rel r1 r2 v1 v2 ->
                   result_rel r1 r2 (w1 v1 i c) (w2 v2 i c)) cs ->
  forall v1 v2 i, visitor_rel r1 r2 v1 v2 ->
    result_rel r1 r2 (walk_nodes w1 v1 i cs) (walk_nodes w2 v2 i cs).
Proof.
  induction 1 as [|c cs Hc _ IH]; intros v1 v2 i R; simpl; auto.
  specialize (Hc v1 v2 i R).
  destruct (w1 v1 i c) as [a|e1], (w2 v2 i c) as [b|e2]; simpl in *;
    auto; contradiction.
Qed.

Lemma walk_rel n : forall r1 r2 s sp v1 v2,
  visitor_rel r1 r2 v1 v2 ->
  result_rel r1 r2 (walk v1 (Some (sp ++ r1)) (s ++ r1) n)
                   (walk v2 (Some (sp ++ r2)) (s ++ r2) n).
Proof.
  induction n as [t|cs IH|u cs IH|cs IH|b cs IH|b cs IH|cs IH|cs IH|cs IH]
    using node_tree_ind; intros r1 r2 s sp v1 v2 R;
    try (assert (K : forall a1 a2, visitor_rel r1 r2 a1 a2 ->
            result_rel r1 r2 (walk_kids (s ++ r1) a1 cs)
                             (walk_kids (s ++ r2) a2 cs));
         [ intros a1 a2 Ra; apply walk_nodes_rel; auto;
           eapply Forall_impl; [|exact IH];
           intros c Hc x1 x2 i Rx;
           apply (Hc r1 r2 (i :: s) s x1 x2 Rx) | ]).
  - reflexivity.
  - reflexivity.
  - simpl. unfold visit_reference. simpl. acc_inv R.
    replace (_exclude_local v2) with (_exclude_local v1) by assumption.
    destruct (_exclude_local v1) eqn:Ex.
    + destruct u as [u|]; simpl; auto.
      destruct (str_find "#" u =? -1); simpl; acc_solve.
    + simpl. acc_solve.
  - simpl. acc_inv R. acc_solve. split; auto. now exists sp.
  - rewrite !walk_bullet_list_eq. unfold visit_bullet_list.
    pose proof R as R'. acc_inv R'.
    destruct (_prev_caption v1) as [p1|], (_prev_caption v2) as [p2|];
      simpl in Hcap; try contradiction.
    + destruct Hcap as [Hch Hid].
      rewrite (same_object_rel r1 r2 sp _ _ Hid).
      destruct (same_object (caption_parent p2) (Some (sp ++ r2)));
        [|apply K; exact R].
      simpl.
      replace (_exclude_local v2) with (_exclude_local v1) by assumption.
      pose proof (K _ _ (visitor_rel_fresh r1 r2 (_exclude_local v1) b))
        as Rk.
      set (fv := if b then set_active true (new_TocVisitor (_exclude_local v1))
                 else new_TocVisitor (_exclude_local v1)) in *.
      destruct (walk_kids (s ++ r1) fv cs) as [c1|e1],
               (walk_kids (s ++ r2) fv cs) as [c2|e2];
        simpl in *; auto; try contradiction.
      acc_inv Rk. rewrite Hch.
      replace (_local_only c2) with (_local_only c1) by assumption.
      replace (_children c2) with (_children c1) by assumption.
      replace (_active c2) with (_active c1) by assumption.
      destruct (negb (_local_only c1)); acc_solve.
    + apply K; exact R.
  - rewrite !walk_list_item_eq. unfold visit_list_item.
    acc_inv R.
    replace (_exclude_local v2) with (_exclude_local v1) by assumption.
    pose proof (K _ _ (visitor_rel_fresh r1 r2 (_exclude_local v1) b))
      as Rk.
    set (fv := if b then set_active true (new_TocVisitor (_exclude_local v1))
               else new_TocVisitor (_exclude_local v1)) in *.
    destruct (walk_kids (s ++ r1) fv cs) as [c1|e1],
             (walk_kids (s ++ r2) fv cs) as [c2|e2];
      simpl in *; auto; try contradiction.
    acc_inv Rk.
    replace (_local_only c2) with (_local_only c1) by assumption.
    unfold get_result.
    destruct (_exclude_local v1 && _local_only c1); simpl; acc_solve.
  - simpl. exact R.
  - apply K; exact R.
  - apply K; exact R.
Qed.

Lemma walk_kids_rel r1 r2 cs v1 v2 :
  visitor_rel r1 r2 v1 v2 ->
  result_rel r1 r2 (walk_kids r1 v1 cs) (walk_kids r2 v2 cs).
Proof.
  intros R. apply walk_nodes_rel; auto.
  apply Forall_forall. intros c _ x1 x2 i Rx.
  apply (walk_rel c r1 r2 [i] [] x1 x2 Rx).
Qed.

Lemma result_rel_outcome r1 r2 x1 x2 :
  result_rel r1 r2 x1 x2 -> same_outcome x1 x2.
Proof.
  destruct x1, x2; simpl; auto. now intros [_ H].
Qed.

Lemma same_outcome_refl x : same_outcome x x.
Proof. destruct x; simpl; auto. Qed.

Lemma visitor_rel_no_caption r1 r2 v :
  _prev_caption v = None -> visitor_rel r1 r2 v v.
Proof. intros H. split; [now rewrite H|reflexivity]. Qed.

Lemma walk_kids_placement s1 s2 cs v :
  _prev_caption v = None ->
  same_outcome (walk_kids s1 v cs) (walk_kids s2 v cs).
Proof.
  intros H. eapply result_rel_outcome.
  apply walk_kids_rel. now apply visitor_rel_no_caption.
Qed.

(** A visitor without pending caption comes to the same result wherever
    the tree it walks is placed. *)
Lemma walk_placement n v p1 p2 s1 s2 :
  _prev_caption v = None ->
  same_outcome (walk v p1 s1 n) (walk v p2 s2 n).
Proof.
  intros H.
  assert (K : forall a cs, _prev_caption a = None ->
            same_outcome (walk_kids s1 a cs) (walk_kids s2 a cs))
    by (intros; now apply walk_kids_placement).
  destruct n as [t|cs|u cs|cs|b cs|b cs|cs|cs|cs].
  - reflexivity.
  - reflexivity.
  - simpl. unfold visit_reference. simpl.
    destruct (_exclude_local v);
      [destruct u as [u|]; [destruct (str_find "#" u =? -1)|]|];
      simpl; reflexivity.
  - simpl. reflexivity.
  - rewrite !walk_bullet_list_no_caption by assumption. now apply K.
  - rewrite !walk_list_item_eq. unfold visit_list_item.
    set (fv := if b then set_active true (new_TocVisitor (_exclude_local v))
               else new_TocVisitor (_exclude_local v)).
    assert (F : _prev_caption fv = None) by (unfold fv; now destruct b).
    specialize (K fv cs F).
    destruct (walk_kids s1 fv cs) as [c1|e1],
             (walk_kids s2 fv cs) as [c2|e2];
      simpl in *; auto; try contradiction.
    unfold accumulated in K. inversion K.
    unfold get_result.
    replace (_local_only c2) with (_local_only c1) by assumption.
    destruct (_exclude_local v && _local_only c1); simpl; congruence.
  - simpl. reflexivity.
  - now apply K.
  - now apply K.
Qed.

(** ** When the walk raises *)

Lemma walk_nodes_is_ok e w cs :
  (forall v i c v', w v i c = Ok v' -> _exclude_local v' = _exclude_local v) ->
  Forall (fun c => forall v i, _exclude_local v = e ->
                   is_ok (w v i c) = visitable e c) cs ->
  forall v i, _exclude_local v = e ->
    is_ok (walk_nodes w v i cs) = forallb (visitable e) cs.
Proof.
  intros Hex. induction 1 as [|c cs Hc _ IH]; intros v i E; simpl; auto.
  specialize (Hc v i E).
  destruct (w v i c) as [v1|x] eqn:W; simpl in *; rewrite <- Hc; simpl; auto.
  apply IH. apply Hex in W. congruence.
Qed.

Lemma walk_is_ok n : forall v parent self,
  is_ok (walk v parent self n) = visitable (_exclude_local v) n.
Proof.
  induction n as [t|cs IH|u cs IH|cs IH|b cs IH|b cs IH|cs IH|cs IH|cs IH]
    using node_tree_ind; intros v parent self;
    try (assert (K : forall a, _exclude_local a = _exclude_local v ->
            is_ok (walk_kids self a cs)
            = forallb (visitable (_exclude_local v)) cs);
         [ intros a Ea; apply walk_nodes_is_ok; auto;
           [ intros x i c x' Hx; apply walk_extends in Hx; apply Hx
           | eapply Forall_impl; [|exact IH];
             intros c Hc x i Ex; rewrite Hc; now rewrite Ex ] | ]).
  - reflexivity.
  - reflexivity.
  - simpl. unfold visit_reference. simpl.
    destruct (_exclude_local v); [|reflexivity].
    destruct u as [u|]; [|reflexivity].
    now destruct (str_find "#" u =? -1).
  - reflexivity.
  - rewrite walk_bullet_list_eq. unfold visit_bullet_list. simpl visitable.
    destruct (_prev_caption v) as [prev|]; [|now apply K].
    destruct (same_object (caption_parent prev) parent); [|now apply K].
    simpl.
    set (fv := if b then _ else _).
    assert (F : _exclude_local fv = _exclude_local v)
      by (unfold fv; now destruct b).
    rewrite <- (K fv F).
    destruct (walk_kids self fv cs) as [cv|e]; simpl; auto.
  - rewrite walk_list_item_eq. unfold visit_list_item. simpl visitable.
    set (fv := if b then _ else _).
    assert (F : _exclude_local fv = _exclude_local v)
      by (unfold fv; now destruct b).
    rewrite <- (K fv F).
    destruct (walk_kids self fv cs) as [cv|e]; simpl; auto.
    now destruct (_exclude_local v && _local_only cv).
  - reflexivity.
  - now apply K.
  - now apply K.
Qed.

Lemma walk_kids_is_ok self v cs :
  is_ok (walk_kids self v cs) = forallb (visitable (_exclude_local v)) cs.
Proof.
  apply walk_nodes_is_ok; auto.
  - intros x i c x' Hx. apply walk_extends in Hx. apply Hx.
  - apply Forall_forall. intros c _ x i Ex. rewrite walk_is_ok. now rewrite Ex.
Qed.

(** ** A list item on its own *)

Lemma exclude_local_fresh (e b : bool) :
  _exclude_local
    (if b then set_active true (new_TocVisitor e) else new_TocVisitor e) = e.
Proof. now destruct b. Qed.

Lemma prev_caption_fresh (e b : bool) :
  _prev_caption
    (if b then set_active true (new_TocVisitor e) else new_TocVisitor e)
  = None.
Proof. now destruct b. Qed.

Lemma active_fresh (e b : bool) :
  _active
    (if b then set_active true (new_TocVisitor e) else new_TocVisitor e) = b.
Proof. now destruct b. Qed.

(** Inside any walk, a list item contributes exactly what converting it
    alone gives. *)
Lemma walk_list_item_alone v parent self cur cs :
  walk v parent self (list_item cur cs)
  = (es <- _get_mkdocs_toc (list_item cur cs) (_exclude_local v) ;;
     Ok (absorb es v)).
Proof.
  unfold _get_mkdocs_toc, _get_mkdocs_toc_at.
  rewrite !walk_list_item_eq. unfold visit_list_item.
  change (_exclude_local (new_TocVisitor (_exclude_local v)))
    with (_exclude_local v).
  set (fv := if cur then _ else _).
  assert (F : _prev_caption fv = None) by apply prev_caption_fresh.
  pose proof (walk_kids_placement self [] cs fv F) as K.
  destruct (walk_kids self fv cs) as [c1|e1],
           (walk_kids [] fv cs) as [c2|e2];
    simpl in *; try contradiction; [|congruence].
  unfold accumulated in K. inversion K.
  replace (_local_only c2) with (_local_only c1) by assumption.
  destruct (_exclude_local v && _local_only c1); simpl; [reflexivity|].
  unfold absorb, append_child, get_result. simpl. congruence.
Qed.

Lemma list_item_entries cur cs e es :
  _get_mkdocs_toc (list_item cur cs) e = Ok es ->
  (List.length es <= 1)%nat /\
  (e = false -> List.length es = 1%nat) /\
  Forall (fun x => active x = cur) es.
Proof.
  unfold _get_mkdocs_toc, _get_mkdocs_toc_at.
  rewrite walk_list_item_eq. unfold visit_list_item.
  change (_exclude_local (new_TocVisitor e)) with e.
  set (fv := if cur then _ else _).
  destruct (walk_kids [] fv cs) as [cv|x] eqn:W; simpl; [|discriminate].
  apply walk_kids_extends in W. destruct W as (_ & A & _).
  unfold fv in A. rewrite active_fresh in A.
  destruct e; simpl.
  - destruct (_local_only cv); simpl; intros H; inversion H; subst; simpl;
      repeat split; auto; try discriminate.
  - intros H; inversion H; subst; simpl; repeat split; auto.
Qed.

(** ** Page-local subtrees *)

Lemma walk_nodes_local_only w cs :
  (forall v i c v', w v i c = Ok v' -> _exclude_local v' = _exclude_local v) ->
  Forall (fun c => forall v i v', _exclude_local v = true ->
            w v i c = Ok v' ->
            _local_only v' = _local_only v && negb (links_page c)) cs ->
  forall v i v', _exclude_local v = true ->
    walk_nodes w v i cs = Ok v' ->
    _local_only v' = _local_only v && negb (existsb links_page cs).
Proof.
  intros Hex. induction 1 as [|c cs Hc _ IH]; intros v i v' E H; simpl in H.
  - inversion H; subst. simpl. now rewrite andb_true_r.
  - destruct (w v i c) as [v1|x] eqn:W; simpl in H; [|discriminate].
    pose proof (Hex _ _ _ _ W) as E1. rewrite E in E1.
    rewrite (IH _ _ _ E1 H), (Hc _ _ _ E W). simpl.
    rewrite negb_orb. now rewrite andb_assoc.
Qed.

Lemma walk_local_only n : forall v parent self v',
  _exclude_local v = true ->
  walk v parent self n = Ok v' ->
  _local_only v' = _local_only v && negb (links_page n).
Proof.
  induction n as [t|cs IH|u cs IH|cs IH|b cs IH|b cs IH|cs IH|cs IH|cs IH]
    using node_tree_ind; intros v parent self v' E H;
    try (assert (K : forall a a', _exclude_local a = true ->
            walk_kids self a cs = Ok a' ->
            _local_only a' = _local_only a && negb (existsb links_page cs));
         [ intros a a' Ea; apply walk_nodes_local_only; auto;
           [ intros x i c x' Hx; apply walk_extends in Hx; apply Hx
           | eapply Forall_impl; [|exact IH];
             intros c Hc x i x' Ex; now apply Hc ] | ]).
  - discriminate.
  - discriminate.
  - simpl in H. unfold visit_reference in H. simpl in H. rewrite E in H.
    destruct u as [u|]; [|discriminate]. simpl.
    destruct (str_find "#" u =? -1); inversion H; subst; simpl.
    + now rewrite andb_false_r.
    + now rewrite andb_true_r.
  - simpl in H. inversion H; subst. simpl. now rewrite andb_true_r.
  - rewrite walk_bullet_list_eq in H. unfold visit_bullet_list in H.
    simpl links_page.
    destruct (_prev_caption v) as [prev|]; [|now apply K].
    destruct (same_object (caption_parent prev) parent); [|now apply K].
    simpl in H. rewrite E in H.
    set (fv := if b then _ else _) in H.
    destruct (walk_kids self fv cs) as [cv|x] eqn:W; simpl in H;
      [|discriminate].
    apply K in W; [|apply exclude_local_fresh].
    assert (L : _local_only fv = true) by (unfold fv; now destruct b).
    rewrite L in W. simpl in W. rewrite W in H.
    destruct (existsb links_page cs); simpl in H; inversion H; subst; simpl.
    + now rewrite andb_false_r.
    + now rewrite andb_true_r.
  - rewrite walk_list_item_eq in H. unfold visit_list_item in H.
    simpl links_page. rewrite E in H.
    set (fv := if b then _ else _) in H.
    destruct (walk_kids self fv cs) as [cv|x] eqn:W; simpl in H;
      [|discriminate].
    apply K in W; [|apply exclude_local_fresh].
    assert (L : _local_only fv = true) by (unfold fv; now destruct b).
    rewrite L in W. simpl in W. rewrite W in H.
    destruct (existsb links_page cs); simpl in H; inversion H; subst; simpl.
    + now rewrite andb_false_r.
    + now rewrite andb_true_r.
  - simpl in H. inversion H; subst. simpl. now rewrite andb_true_r.
  - now apply K.
  - now apply K.
Qed.

(** ** A caption and the list it titles *)

Lemma same_object_refl x : same_object (Some x) (Some x) = true.
Proof. simpl. now destruct (list_eq_dec Nat.eq_dec x x). Qed.

Lemma walk_siblings_cons self v i c cs :
  walk_siblings self v i (c :: cs)
  = (v1 <- walk v (Some self) (i :: self) c ;; walk_siblings self v1 (S i) cs).
Proof. reflexivity. Qed.

Lemma walk_siblings_nil self v i : walk_siblings self v i [] = Ok v.
Proof. reflexivity. Qed.

Lemma walk_kids_siblings self v cs :
  walk_kids self v cs = walk_siblings self v 0 cs.
Proof. reflexivity. Qed.

Lemma walk_siblings_extends self cs v i v' :
  walk_siblings self v i cs = Ok v' -> extends v v'.
Proof.
  apply walk_nodes_extends. apply Forall_forall.
  intros c _ x j x'. apply walk_extends.
Qed.

(** A bullet list met while the caption of its own parent is pending. *)
Lemma walk_bullet_list_grouped v parent self cur cs prev :
  _prev_caption v = Some prev ->
  same_object (caption_parent prev) parent = true ->
  walk v parent self (bullet_list cur cs)
  = (cv <- walk_kids self (child_visitor_for (_exclude_local v) cur) cs ;;
     Ok (close_group (caption_children prev) cv v)).
Proof.
  intros P S. rewrite walk_bullet_list_eq. unfold visit_bullet_list.
  rewrite P, S. simpl.
  change (if cur then set_active true (new_TocVisitor (_exclude_local v))
          else new_TocVisitor (_exclude_local v))
    with (child_visitor_for (_exclude_local v) cur).
  destruct (walk_kids self _ cs) as [cv|e]; simpl; [|reflexivity].
  unfold close_group, group_entry. now destruct (negb (_local_only cv)).
Qed.

(** A bullet list met while a caption of another parent is pending. *)
Lemma walk_bullet_list_other_parent v parent self cur cs prev :
  _prev_caption v = Some prev ->
  same_object (caption_parent prev) parent = false ->
  walk v parent self (bullet_list cur cs) = walk_kids self v cs.
Proof.
  intros P S. rewrite walk_bullet_list_eq. unfold visit_bullet_list.
  now rewrite P, S.
Qed.

(** A caption directly followed by a bullet list among the children of
    one node. *)
Lemma walk_caption_then_list self v i cap cur items rest :
  walk_siblings self v i (caption cap :: bullet_list cur items :: rest)
  = (cv <- walk_kids (S i :: self)
             (child_visitor_for (_exclude_local v) cur) items ;;
     walk_siblings self (close_group cap cv v) (S (S i)) rest).
Proof.
  rewrite walk_siblings_cons.
  assert (Hc : walk v (Some self) (i :: self) (caption cap)
               = Ok (set_prev_caption
                       (Some {| caption_children := cap;
                                caption_parent := Some self |}) v))
    by reflexivity.
  rewrite Hc. cbn [Py.bind].
  rewrite walk_siblings_cons.
  erewrite walk_bullet_list_grouped;
    [|reflexivity|apply same_object_refl].
  cbn [caption_children _exclude_local set_prev_caption].
  destruct (walk_kids (S i :: self) _ items) as [cv|e]; reflexivity.
Qed.

(** ** A run of list items *)

Lemma absorb_extends es v :
  _exclude_local (absorb es v) = _exclude_local v /\
  _children (absorb es v) = _children v ++ es /\
  _active (absorb es v) = _active v /\
  _prev_caption (absorb es v) = _prev_caption v.
Proof.
  destruct es; simpl; repeat split; auto. now rewrite app_nil_r.
Qed.

(** Walking list items one after the other appends, in their order, what
    each of them converts to on its own. *)
Lemma walk_list_items self items : forall v i v',
  forallb is_list_item items = true ->
  walk_siblings self v i items = Ok v' ->
  exists ess,
    Forall2 (fun it es => _get_mkdocs_toc it (_exclude_local v) = Ok es)
            items ess /\
    _children v' = _children v ++ List.concat ess /\
    _prev_caption v' = _prev_caption v.
Proof.
  induction items as [|it items IH]; intros v i v' L H.
  - rewrite walk_siblings_nil in H. inversion H; subst.
    exists []. repeat split; auto. simpl. now rewrite app_nil_r.
  - simpl in L. apply andb_true_iff in L. destruct L as [Li L].
    destruct it; try discriminate.
    rewrite walk_siblings_cons, walk_list_item_alone in H.
    destruct (_get_mkdocs_toc _ (_exclude_local v)) as [es|x] eqn:C;
      simpl in H; [|discriminate].
    destruct (absorb_extends es v) as (E & Ch & _ & Pc).
    destruct (IH _ _ _ L H) as (ess & F & Hc & Hp).
    exists (es :: ess). repeat split.
    + constructor; auto. now rewrite E in F.
    + rewrite Hc, Ch. simpl. now rewrite app_assoc.
    + congruence.
Qed.

Lemma walk_kids_local_only self cs v v' :
  _exclude_local v = true ->
  walk_kids self v cs = Ok v' ->
  _local_only v' = _local_only v && negb (existsb links_page cs).
Proof.
  intros E H.
  apply (walk_local_only (paragraph cs) v None self v' E H).
Qed.

(** How many entries a list item converts to. *)
Lemma list_item_entries_count cur cs e es :
  _get_mkdocs_toc (list_item cur cs) e = Ok es ->
  List.length es
  = if e && negb (links_page (list_item cur cs)) then 0%nat else 1%nat.
Proof.
  unfold _get_mkdocs_toc, _get_mkdocs_toc_at.
  rewrite walk_list_item_eq. unfold visit_list_item.
  change (_exclude_local (new_TocVisitor e)) with e.
  set (fv := if cur then _ else _).
  destruct (walk_kids [] fv cs) as [cv|x] eqn:W; simpl; [|discriminate].
  destruct e; simpl.
  - apply walk_kids_local_only in W; [|apply exclude_local_fresh].
    assert (L : _local_only fv = true) by (unfold fv; now destruct cur).
    rewrite L in W. simpl in W. rewrite W.
    destruct (existsb links_page cs); simpl; intros H; inversion H; auto.
  - intros H; inversion H; auto.
Qed.

Lemma walk_ok_of_visitable n v parent self :
  visitable (_exclude_local v) n = true ->
  exists v', walk v parent self n = Ok v'.
Proof.
  intros H. rewrite <- (walk_is_ok n v parent self) in H.
  destruct (walk v parent self n) as [v'|e]; [now exists v'|discriminate].
Qed.

Lemma walk_siblings_is_ok self v i cs :
  is_ok (walk_siblings self v i cs)
  = forallb (visitable (_exclude_local v)) cs.
Proof.
  apply walk_nodes_is_ok; auto.
  - intros x j c x' Hx. apply walk_extends in Hx. apply Hx.
  - apply Forall_forall. intros c _ x j Ex. rewrite walk_is_ok. now rewrite Ex.
Qed.

(** ** Items as Sphinx builds them *)

Lemma convert_toc_item u t e :
  _get_mkdocs_toc (toc_item u t) e
  = Ok (if e && negb (str_find "#" u =? -1) then [] else [toc_leaf u t]).
Proof.
  destruct e.
  - unfold _get_mkdocs_toc, _get_mkdocs_toc_at, toc_item.
    rewrite walk_list_item_eq. unfold visit_list_item, walk_kids.
    cbn. unfold visit_reference. cbn.
    destruct (str_find "#" u =? -1); reflexivity.
  - reflexivity.
Qed.

Lemma absorb_app es1 es2 v :
  absorb es2 (absorb es1 v) = absorb (es1 ++ es2) v.
Proof.
  destruct es1 as [|a es1]; [reflexivity|].
  destruct es2 as [|b es2]; simpl.
  - now rewrite app_nil_r.
  - now rewrite <- app_assoc.
Qed.

Lemma walk_toc_items self items : forall v i,
  walk_siblings self v i (map (fun ut => toc_item (fst ut) (snd ut)) items)
  = Ok (absorb (toc_leaves (_exclude_local v) items) v).
Proof.
  induction items as [|[u t] items IH]; intros v i; [reflexivity|].
  simpl map. rewrite walk_siblings_cons.
  unfold toc_item at 1. rewrite walk_list_item_alone.
  fold (toc_item u t). rewrite convert_toc_item. cbn [Py.bind].
  rewrite IH. rewrite absorb_app.
  destruct (absorb_extends
              (if _exclude_local v && negb (str_find "#" u =? -1)
               then [] else [toc_leaf u t]) v) as (E & _).
  rewrite E. reflexivity.
Qed.

Lemma convert_toc_group cap cur items e :
  _get_mkdocs_toc (toc_group cap cur items) e
  = Ok [{| title := Some (_render_title [Text cap]);
           url := first_url (toc_leaves e items);
           children := toc_leaves e items;
           active := cur |}].
Proof.
  unfold _get_mkdocs_toc, _get_mkdocs_toc_at, toc_group.
  change (walk (new_TocVisitor e) None [] (compact_paragraph ?cs))
    with (walk_siblings [] (new_TocVisitor e) 0 cs).
  rewrite walk_caption_then_list, walk_kids_siblings, walk_toc_items.
  cbn [Py.bind]. rewrite walk_siblings_nil. cbn [Py.bind].
  change (_exclude_local (new_TocVisitor e)) with e.
  assert (X : _exclude_local (child_visitor_for e cur) = e)
    by apply exclude_local_fresh.
  assert (Y : _active (child_visitor_for e cur) = cur)
    by apply active_fresh.
  assert (Z : _children (child_visitor_for e cur) = [])
    by now destruct cur.
  rewrite X. f_equal.
  destruct (absorb_extends (toc_leaves e items) (child_visitor_for e cur))
    as (_ & C & A & _).
  unfold close_group, group_entry. rewrite C, A, Y, Z.
  destruct (negb _); reflexivity.
Qed.

Lemma walk_list_items_counted self items v i :
  forallb is_list_item items = true ->
  forallb (visitable (_exclude_local v)) items = true ->
  exists v' ess,
    walk_siblings self v i items = Ok v' /\
    Forall2 (item_converts (_exclude_local v)) items ess /\
    _children v' = _children v ++ List.concat ess /\
    _prev_caption v' = _prev_caption v.
Proof.
  intros L V.
  pose proof (walk_siblings_is_ok self v i items) as K. rewrite V in K.
  destruct (walk_siblings self v i items) as [v'|x] eqn:W; [|discriminate].
  destruct (walk_list_items _ _ _ _ _ L W) as (ess & F & C & P).
  exists v', ess. repeat split; auto.
  clear - L F. revert L.
  induction F as [|it es items ess H _ IH]; intros L; constructor.
  - simpl in L. apply andb_true_iff in L. destruct L as [Li _].
    split; [exact H|].
    destruct it; try discriminate.
    now apply list_item_entries_count.
  - simpl in L. apply andb_true_iff in L. now apply IH.
Qed.

Lemma item_converts_all_kept items ess :
  Forall2 (item_converts false) items ess ->
  List.length (List.concat ess) = List.length items.
Proof.
  induction 1 as [|it es items ess [_ N] _ IH]; [reflexivity|].
  simpl in *. rewrite length_app, IH, N. reflexivity.
Qed.

Lemma startswith_find c s :
  startswith s c = true -> str_find c s = 0.
Proof.
  destruct s as [|a s]; simpl; [discriminate|].
  now intros ->.
Qed.

Lemma toc_leaves_all items :
  toc_leaves false items = map (fun ut => toc_leaf (fst ut) (snd ut)) items.
Proof.
  induction items as [|ut items IH]; simpl; [reflexivity|].
  now rewrite IH.
Qed.

Lemma toc_leaves_fragments items :
  Forall (fun ut => startswith (fst ut) "#" = true) items ->
  toc_leaves true items = [].
Proof.
  induction 1 as [|ut items H _ IH]; simpl; [reflexivity|].
  rewrite (startswith_find _ _ H). simpl. exact IH.
Qed.

(** ** The title and url a visitor holds *)

Lemma visit_reference_sets v u t v' f :
  visit_reference v u t = Ok (v', f) ->
  _rendered_title v' = Some (_render_title t) /\ _url v' = u /\
  f = SkipChildren /\ _prev_caption v' = _prev_caption v.
Proof.
  unfold visit_reference. simpl.
  destruct (_exclude_local v).
  - destruct u as [u|]; [|discriminate].
    destruct (str_find "#" u =? -1); intros H; inversion H; subst; auto.
  - intros H; inversion H; subst; auto.
Qed.

Lemma walk_siblings_app self l1 l2 v i :
  walk_siblings self v i (l1 ++ l2)
  = (v1 <- walk_siblings self v i l1 ;;
     walk_siblings self v1 (i + List.length l1)%nat l2).
Proof. apply walk_nodes_app. Qed.

(** ** The references a visitor is dispatched on *)

(** What a visitor holds after a walk is what it held before, overwritten
    by each reference it was dispatched on. *)
Lemma walk_nodes_dispatched w d cs :
  Forall (fun c => forall v i v', w v i c = Ok v' ->
            pending_of v' = snd (d (pending_of v) i c) /\
            held v' = fold_left hold (fst (d (pending_of v) i c)) (held v))
         cs ->
  forall v i v', walk_nodes w v i cs = Ok v' ->
    pending_of v' = snd (dispatched_nodes d (pending_of v) i cs) /\
    held v'
    = fold_left hold (fst (dispatched_nodes d (pending_of v) i cs)) (held v).
Proof.
  induction 1 as [|c cs Hc _ IH]; intros v i v' H; simpl in H.
  - inversion H; subst. split; reflexivity.
  - destruct (w v i c) as [v1|x] eqn:W; simpl in H; [|discriminate].
    destruct (Hc _ _ _ W) as [P1 H1].
    destruct (IH _ _ _ H) as [P2 H2].
    simpl. destruct (d (pending_of v) i c) as [r1 p1]. simpl in P1, H1.
    rewrite P1 in P2, H2.
    destruct (dispatched_nodes d p1 (S i) cs) as [r2 p2]. simpl in *.
    split; [exact P2|]. rewrite fold_left_app, <- H1. exact H2.
Qed.

Lemma walk_dispatched n : forall v parent self v',
  walk v parent self n = Ok v' ->
  pending_of v' = snd (dispatched (pending_of v) parent self n) /\
  held v' = fold_left hold (fst (dispatched (pending_of v) parent self n))
              (held v).
Proof.
  induction n as [t|cs IH|u cs IH|cs IH|b cs IH|b cs IH|cs IH|cs IH|cs IH]
    using node_tree_ind; intros v parent self v' H;
    try discriminate;
    try (assert (K : forall a a', walk_kids self a cs = Ok a' ->
            pending_of a'
            = snd (dispatched_siblings (pending_of a) self 0 cs) /\
            held a'
            = fold_left hold
                (fst (dispatched_siblings (pending_of a) self 0 cs))
                (held a));
         [ intros a a'; apply walk_nodes_dispatched;
           eapply Forall_impl; [|exact IH];
           intros c Hc x i x'; apply Hc | ]).
  - simpl in H.
    destruct (visit_reference v u cs) as [[a f]|x] eqn:R; simpl in H;
      [|discriminate].
    destruct (visit_reference_sets _ _ _ _ _ R) as (T & U & -> & P).
    inversion H; subst. simpl. split.
    + unfold pending_of. now rewrite P.
    + unfold held, hold. simpl. now rewrite T.
  - simpl in H. inversion H; subst. split; reflexivity.
  - rewrite walk_bullet_list_eq in H. unfold visit_bullet_list in H.
    simpl dispatched.
    destruct (_prev_caption v) as [prev|] eqn:P.
    + assert (Pd : pending_of v = Some (caption_parent prev))
        by (unfold pending_of; now rewrite P).
      rewrite Pd.
      destruct (same_object (caption_parent prev) parent) eqn:S.
      * simpl in H.
        destruct (walk_kids self _ cs) as [cv|x]; simpl in H;
          [|discriminate].
        inversion H; subst.
        destruct (negb (_local_only cv)); split; reflexivity.
      * apply K in H. rewrite Pd in H. exact H.
    + assert (Pd : pending_of v = None)
        by (unfold pending_of; now rewrite P).
      rewrite Pd. apply K in H. rewrite Pd in H. exact H.
  - rewrite walk_list_item_eq in H. unfold visit_list_item in H.
    destruct (walk_kids self _ cs) as [cv|x]; simpl in H; [|discriminate].
    destruct (_exclude_local v && _local_only cv); inversion H; subst;
      split; reflexivity.
  - simpl in H. inversion H; subst. split; reflexivity.
  - now apply K.
  - now apply K.
Qed.

Lemma walk_siblings_dispatched self cs v i v' :
  walk_siblings self v i cs = Ok v' ->
  pending_of v' = snd (dispatched_siblings (pending_of v) self i cs) /\
  held v'
  = fold_left hold (fst (dispatched_siblings (pending_of v) self i cs))
      (held v).
Proof.
  apply walk_nodes_dispatched. apply Forall_forall.
  intros c _ x j x'. apply walk_dispatched.
Qed.

Lemma last_nonempty (rs : list seen_reference) : forall r d1 d2,
  last (r :: rs) d1 = last (r :: rs) d2.
Proof.
  induction rs as [|r' rs IH]; intros r d1 d2; [reflexivity|].
  change (last (r' :: rs) d1 = last (r' :: rs) d2). apply IH.
Qed.

Lemma last_map_Some (rs : list seen_reference) : forall r,
  last (map Some (r :: rs)) None = Some (last rs r).
Proof.
  induction rs as [|r' rs IH]; intros r; [reflexivity|].
  change (last (map Some (r' :: rs)) None = Some (last (r' :: rs) r)).
  rewrite IH. f_equal.
  destruct rs as [|r'' rs]; [reflexivity|].
  change (last (r'' :: rs) r' = last (r'' :: rs) r). apply last_nonempty.
Qed.

Lemma fold_left_hold_cons rs : forall r h,
  fold_left hold (r :: rs) h
  = (Some (_render_title (snd (last rs r))), fst (last rs r)).
Proof.
  induction rs as [|r' rs IH]; intros r h; [reflexivity|].
  change (fold_left hold (r :: r' :: rs) h)
    with (fold_left hold (r' :: rs) (hold h r)).
  rewrite IH.
  destruct rs as [|r'' rs]; [reflexivity|].
  change (last (r' :: r'' :: rs) r) with (last (r'' :: rs) r).
  now rewrite (last_nonempty rs r'' r' r).
Qed.

Lemma fold_left_hold rs h :
  fold_left hold rs h
  = match last (map Some rs) None with
    | Some r => (Some (_render_title (snd r)), fst r)
    | None => h
    end.
Proof.
  destruct rs as [|r rs]; [reflexivity|].
  now rewrite fold_left_hold_cons, last_map_Some.
Qed.

Lemma list_item_entries_reference cur cs e es u t :
  last_dispatched cs = Some (u, t) ->
  _get_mkdocs_toc (list_item cur cs) e = Ok es ->
  Forall (fun x => title x = Some (_render_title t) /\ url x = u) es.
Proof.
  intros L. unfold _get_mkdocs_toc, _get_mkdocs_toc_at.
  rewrite walk_list_item_eq. unfold visit_list_item.
  set (fv := if cur then _ else _).
  destruct (walk_kids [] fv cs) as [cv|x] eqn:K; simpl; [|discriminate].
  rewrite walk_kids_siblings in K.
  destruct (walk_siblings_dispatched _ _ _ _ _ K) as [_ Hh].
  assert (P : pending_of fv = None) by (unfold fv; now destruct cur).
  rewrite P, fold_left_hold in Hh.
  unfold last_dispatched in L. rewrite L in Hh. simpl in Hh.
  unfold held in Hh. inversion Hh.
  destruct (e && _local_only cv); simpl; intros H; inversion H; subst;
    repeat constructor; assumption.
Qed.

(** ** The marker of the current page *)




(** ** The children of an entry *)

(** A run of references appends nothing and leaves the pending caption
    alone. *)
Lemma walk_references self refs : forall v i,
  forallb is_reference refs = true ->
  forallb (visitable (_exclude_local v)) refs = true ->
  exists v',
    walk_siblings self v i refs = Ok v' /\
    _children v' = _children v /\
    _prev_caption v' = _prev_caption v /\
    _exclude_local v' = _exclude_local v.
Proof.
  induction refs as [|r refs IH]; intros v i R V.
  - exists v. now rewrite walk_siblings_nil.
  - simpl in R, V. apply andb_true_iff in R. destruct R as [Rr R].
    apply andb_true_iff in V. destruct V as [Vr V].
    destruct r as [| |u t| | | | | |]; try discriminate.
    rewrite walk_siblings_cons.
    assert (H : exists v1,
               walk v (Some self) (i :: self) (reference u t) = Ok v1 /\
               _children v1 = _children v /\
               _prev_caption v1 = _prev_caption v /\
               _exclude_local v1 = _exclude_local v).
    { cbn [walk]. unfold visit_reference. simpl in Vr |- *.
      destruct (_exclude_local v) eqn:E.
      - destruct u as [u|]; [|discriminate].
        destruct (str_find "#" u =? -1); simpl; eexists; repeat split;
          simpl; auto.
      - simpl. eexists. repeat split; simpl; auto. }
    destruct H as (v1 & W & C & P & E). rewrite W. cbn [Py.bind].
    rewrite <- E in V.
    destruct (IH v1 (S i) R V) as (v' & W' & C' & P' & E').
    exists v'. repeat split; congruence.
Qed.

(** What the walk of a list item appends: nothing, or one entry whose
    [children] are what the item's own visitor gathered from the item's
    children. *)
Lemma walk_list_item_children v parent self cur cs :
  visitable (_exclude_local v) (list_item cur cs) = true ->
  exists v' cv es,
    walk v parent self (list_item cur cs) = Ok v' /\
    walk_siblings self (child_visitor_for (_exclude_local v) cur) 0 cs
    = Ok cv /\
    _children v' = _children v ++ es /\
    List.length es
    = (if _exclude_local v && negb (links_page (list_item cur cs))
       then 0%nat else 1%nat) /\
    Forall (fun x => children x = _children cv) es.
Proof.
  intros V.
  destruct (walk_ok_of_visitable _ v parent self V) as [v' W].
  exists v'. pose proof W as W0.
  rewrite walk_list_item_eq in W. unfold visit_list_item in W.
  change (if cur then set_active true (new_TocVisitor (_exclude_local v))
          else new_TocVisitor (_exclude_local v))
    with (child_visitor_for (_exclude_local v) cur) in W.
  unfold walk_kids in W. fold (walk_siblings self
    (child_visitor_for (_exclude_local v) cur) 0 cs) in W.
  destruct (walk_siblings self _ 0 cs) as [cv|x] eqn:K;
    cbn [Py.bind] in W; [|discriminate].
  exists cv.
  destruct (_exclude_local v) eqn:E.
  - pose proof (walk_kids_local_only self cs (child_visitor_for true cur)
                  cv (exclude_local_fresh true cur) K) as L.
    assert (F : _local_only (child_visitor_for true cur) = true)
      by now destruct cur.
    rewrite F in L. simpl in L. simpl in W |- *. rewrite L in W.
    destruct (existsb links_page cs); simpl in W |- *;
      inversion W; subst; clear W.
    + exists [get_result cv]. simpl. repeat split; auto.
    + exists []. simpl. repeat split; auto. now rewrite app_nil_r.
  - simpl in W. inversion W; subst; clear W.
    exists [get_result cv]. simpl. repeat split; auto.
Qed.

(** The same for an item that holds its references and then a nested
    list of items: the [children] of its entry are, in the nested items'
    order, what each of them converts to. *)
Lemma walk_nested_item_children v parent self cur refs b items :
  forallb is_reference refs = true ->
  forallb is_list_item items = true ->
  visitable (_exclude_local v) (nested_item cur refs b items) = true ->
  exists v' es ess,
    walk v parent self (nested_item cur refs b items) = Ok v' /\
    _children v' = _children v ++ es /\
    List.length es
    = (if _exclude_local v && negb (links_page (nested_item cur refs b items))
       then 0%nat else 1%nat) /\
    Forall2 (item_converts (_exclude_local v)) items ess /\
    Forall (fun x => children x = List.concat ess) es.
Proof.
  intros R L V. unfold nested_item in *.
  destruct (walk_list_item_children v parent self cur _ V)
    as (v' & cv & es & W & K & C & N & F).
  set (fv := child_visitor_for (_exclude_local v) cur) in *.
  assert (X : _exclude_local fv = _exclude_local v)
    by apply exclude_local_fresh.
  assert (Z : _children fv = []) by (unfold fv; now destruct cur).
  assert (P : _prev_caption fv = None) by apply prev_caption_fresh.
  simpl in V. rewrite andb_true_r in V.
  apply andb_true_iff in V. destruct V as [Vr Vi].
  rewrite walk_siblings_cons in K.
  change (walk fv (Some self) (0%nat :: self) (compact_paragraph refs))
    with (walk_siblings (0%nat :: self) fv 0 refs) in K.
  rewrite <- X in Vr.
  destruct (walk_references (0%nat :: self) refs fv 0%nat R Vr)
    as (v1 & W1 & C1 & P1 & E1).
  rewrite W1 in K. cbn [Py.bind] in K.
  rewrite walk_siblings_cons in K.
  rewrite walk_bullet_list_no_caption in K by congruence.
  rewrite walk_kids_siblings in K.
  assert (Vi' : forallb (visitable (_exclude_local v1)) items = true)
    by (rewrite E1, X; exact Vi).
  destruct (walk_list_items_counted (1%nat :: self) items v1 0 L Vi')
    as (v2 & ess & W2 & F2 & C2 & _).
  rewrite W2 in K. cbn [Py.bind] in K. rewrite walk_siblings_nil in K.
  inversion K; subst cv. clear K.
  rewrite E1, X in F2. rewrite C1, Z in C2. simpl in C2.
  exists v', es, ess. repeat split; auto.
  rewrite C2 in F. exact F.
Qed.

(** The entry of a captioned bullet list of items has, as [children], in
    the items' order, what each of them converts to. *)
Lemma walk_group_children self v i cap cur items :
  forallb is_list_item items = true ->
  forallb (visitable (_exclude_local v)) items = true ->
  exists v' ess x,
    walk_siblings self v i [caption cap; bullet_list cur items] = Ok v' /\
    Forall2 (item_converts (_exclude_local v)) items ess /\
    _children v' = _children v ++ [x] /\
    children x = List.concat ess.
Proof.
  intros L V.
  rewrite walk_caption_then_list.
  set (fv := child_visitor_for (_exclude_local v) cur).
  assert (X : _exclude_local fv = _exclude_local v)
    by apply exclude_local_fresh.
  assert (Z : _children fv = []) by (unfold fv; now destruct cur).
  rewrite <- X in V.
  destruct (walk_list_items_counted (S i :: self) items fv 0 L V)
    as (cv & ess & W & F & C & _).
  rewrite walk_kids_siblings, W. cbn [Py.bind]. rewrite walk_siblings_nil.
  rewrite X in F. rewrite Z in C. simpl in C.
  exists (close_group cap cv v), ess, (group_entry cap cv).
  repeat split; auto.
  unfold close_group. now destruct (negb (_local_only cv)).
Qed.


(** * The claims *)

(** ** C1: which entries survive when local links are excluded *)

(** C1, at the input the claim names: with [exclude_local] set, the group
    whose items link to [page2.html#x] and [#a] keeps neither of them;
    the claim has both retained. *)
Lemma C1_mixed_group_keeps_no_child :
  _get_mkdocs_toc mixed_group true
  = Ok [{| title := Some "Chapter 1"; url := None;
           children := []; active := false |}].
Proof. reflexivity. Qed.

(** C1 (amended).  With [exclude_local] set, the walk of a list item
    appends an entry exactly when some reference the item or a descendant
    holds has a url without ['#'] (a url with a fragment is page-local,
    with or without a path before it); without [exclude_local] it always
    appends one.  So the group with items [page2.html#x] and [#a] keeps
    no child under [exclude_local] and both without it. *)
Theorem C1_list_item_kept_iff_links_page :
  (forall v parent self cur cs,
      visitable (_exclude_local v) (list_item cur cs) = true ->
      exists v',
        walk v parent self (list_item cur cs) = Ok v' /\
        if _exclude_local v && negb (links_page (list_item cur cs))
        then _children v' = _children v
        else exists e, _children v' = _children v ++ [e]) /\
  _get_mkdocs_toc mixed_group true
  = Ok [{| title := Some "Chapter 1"; url := None;
           children := []; active := false |}] /\
  _get_mkdocs_toc mixed_group false
  = Ok [{| title := Some "Chapter 1"; url := Some "page2.html#x";
           children := [toc_leaf "page2.html#x" "X"; toc_leaf "#a" "A"];
           active := false |}].
Proof.
  split; [|split; reflexivity].
  intros v parent self cur cs V.
  destruct (walk_ok_of_visitable _ v parent self V) as [v' W].
  exists v'. split; [exact W|].
  rewrite walk_list_item_alone in W.
  destruct (_get_mkdocs_toc (list_item cur cs) (_exclude_local v))
    as [es|x] eqn:C; simpl in W; [|discriminate].
  inversion W; subst. clear W.
  pose proof (list_item_entries_count _ _ _ _ C) as N.
  destruct (_exclude_local v && negb (links_page (list_item cur cs))).
  - destruct es; [reflexivity|discriminate].
  - destruct es as [|e [|e' es]]; try discriminate.
    exists e. reflexivity.
Qed.

Lemma C1_witness :
  exists v',
    walk (new_TocVisitor true) None [] (toc_item "page2.html#x" "X") = Ok v' /\
    _children v' = [].
Proof.
  exact (proj1 C1_list_item_kept_iff_links_page
           (new_TocVisitor true) None [] false
           [compact_paragraph [reference (Some "page2.html#x") [Text "X"]]]
           eq_refl).
Defined.

(** ** C2: a reference without url *)

(** C2, at a failing input: a list item whose reference carries no
    [refuri].  Without [exclude_local] the entry gets [url = None]; with
    it, [self._url.find] is called on [None] and the converter raises.
    In general the converter returns exactly on the [visitable] trees. *)
Theorem C2_missing_url_raises_when_excluding_local :
  _get_mkdocs_toc missing_url_tree true = Raise AttributeError /\
  _get_mkdocs_toc missing_url_tree false
  = Ok [{| title := Some "A"; url := None; children := [];
           active := false |}] /\
  (forall toc_node exclude_local,
      is_ok (_get_mkdocs_toc toc_node exclude_local)
      = visitable exclude_local toc_node).
Proof.
  split; [reflexivity|split; [reflexivity|]].
  intros toc_node e. unfold _get_mkdocs_toc, _get_mkdocs_toc_at.
  change (visitable e toc_node)
    with (visitable (_exclude_local (new_TocVisitor e)) toc_node).
  rewrite <- (walk_is_ok toc_node (new_TocVisitor e) None []).
  now destruct (walk (new_TocVisitor e) None [] toc_node).
Qed.

(** ** C3: the active flag *)



(** ** C4: a caption and the list that follows it *)

(** C4, at a captioned two-item list whose items link to sections
    [index.html#intro] and [index.html#usage], with [exclude_local] set:
    the group's [children] is empty and its [url] is [None]; the claim
    has two children and the first item's url. *)
Lemma C4_group_of_sections_has_no_children :
  _get_mkdocs_toc sections_group true
  = Ok [{| title := Some "Chapter 1"; url := None;
           children := []; active := false |}].
Proof. reflexivity. Qed.

(** C4 (amended).  A caption directly followed, under the same parent, by
    a bullet list of list items makes the visitor append exactly one
    entry: its title is the caption's text; its children are, in the
    items' order, the entries the items convert to (for each item one
    entry, or none when local links are excluded and the item links to no
    page, so as many as there are items without [exclude_local]); its url
    is that of the first of these children, or [None] without any. *)
Theorem C4_caption_groups_following_list :
  forall self v i cap cur items,
    forallb is_list_item items = true ->
    forallb (visitable (_exclude_local v)) items = true ->
    exists v' ess,
      walk_siblings self v i [caption cap; bullet_list cur items] = Ok v' /\
      Forall2 (item_converts (_exclude_local v)) items ess /\
      _children v'
      = _children v
        ++ [{| title := Some (_render_title cap);
               url := first_url (List.concat ess);
               children := List.concat ess;
               active := cur |}] /\
      (_exclude_local v = false ->
       List.length (List.concat ess) = List.length items).
Proof.
  intros self v i cap cur items L V.
  rewrite walk_caption_then_list.
  set (fv := child_visitor_for (_exclude_local v) cur).
  assert (X : _exclude_local fv = _exclude_local v)
    by apply exclude_local_fresh.
  assert (Y : _active fv = cur) by apply active_fresh.
  assert (Z : _children fv = []) by (unfold fv; now destruct cur).
  rewrite <- X in V.
  destruct (walk_list_items_counted (S i :: self) items fv 0 L V)
    as (cv & ess & W & F & C & _).
  rewrite walk_kids_siblings, W. cbn [Py.bind]. rewrite walk_siblings_nil.
  rewrite X in F. rewrite Z in C. simpl in C.
  exists (close_group cap cv v), ess. repeat split; auto.
  - apply walk_siblings_extends in W. destruct W as (_ & A & _).
    unfold close_group, group_entry. rewrite C, A, Y.
    now destruct (negb (_local_only cv)).
  - intros E. rewrite E in F. now apply item_converts_all_kept.
Qed.

Lemma C4_witness :
  exists v' ess,
    walk_siblings [] (new_TocVisitor false) 0
      [caption [Text "Chapter 1"];
       bullet_list false
         [toc_item "intro.html" "Intro"; toc_item "usage.html" "Usage"]]
    = Ok v' /\
    Forall2 (item_converts false)
      [toc_item "intro.html" "Intro"; toc_item "usage.html" "Usage"] ess /\
    _children v'
    = [] ++ [{| title := Some "Chapter 1";
                url := first_url (List.concat ess);
                children := List.concat ess;
                active := false |}] /\
    (false = false -> List.length (List.concat ess) = 2%nat).
Proof.
  exact (C4_caption_groups_following_list
           [] (new_TocVisitor false) 0 [Text "Chapter 1"] false
           [toc_item "intro.html" "Intro"; toc_item "usage.html" "Usage"]
           eq_refl eq_refl).
Defined.

(** ** C5: a group of fragment-only links *)

(** C5.  A captioned group all of whose items link to fragment-only urls
    converts, with [exclude_local] set, to an entry with an empty
    [children] list, and without it to an entry holding every item, in
    order.  The titles are the texts of the caption and of the
    references as [_render_title] gives them. *)
Theorem C5_fragment_only_group :
  forall cap cur items,
    Forall (fun ut => startswith (fst ut) "#" = true) items ->
    _get_mkdocs_toc (toc_group cap cur items) true
    = Ok [{| title := Some (_render_title [Text cap]); url := None;
             children := []; active := cur |}] /\
    _get_mkdocs_toc (toc_group cap cur items) false
    = Ok [{| title := Some (_render_title [Text cap]);
             url := match items with
                    | [] => None
                    | ut :: _ => Some (fst ut)
                    end;
             children :=
               map (fun ut =>
                      {| title := Some (_render_title [Text (snd ut)]);
                         url := Some (fst ut);
                         children := []; active := false |})
                   items;
             active := cur |}].
Proof.
  intros cap cur items F. rewrite !convert_toc_group.
  rewrite (toc_leaves_fragments _ F), toc_leaves_all. split; [reflexivity|].
  destruct items; reflexivity.
Qed.

Lemma C5_witness :
  _get_mkdocs_toc (toc_group "Group" false [("#a", "A"); ("#b", "B")]) true
  = Ok [{| title := Some "Group"; url := None;
           children := []; active := false |}] /\
  _get_mkdocs_toc (toc_group "Group" false [("#a", "A"); ("#b", "B")]) false
  = Ok [{| title := Some "Group"; url := Some "#a";
           children :=
             [{| title := Some "A"; url := Some "#a";
                 children := []; active := false |};
              {| title := Some "B"; url := Some "#b";
                 children := []; active := false |}];
           active := false |}].
Proof.
  apply (C5_fragment_only_group "Group" false [("#a", "A"); ("#b", "B")]).
  repeat constructor.
Defined.

(** ** C6: the order of the entries *)

(** C6.  Every [children] sequence of the output follows the order of
    the source.

    - The entries a visitor appends while it walks the children of a
      node come in the children's order: those of earlier siblings
      first, and they stay.  A paragraph, a compact paragraph and a
      bullet list that is not grouped under a caption hand their
      children to the same visitor, in order.
    - For a run of list items, what is appended is the concatenation,
      item by item, of what each item converts to, and an item converts
      to one entry unless local links are excluded and it links to no
      page; so it is for the items of a bullet list handed to the
      converter.
    - The entry of a list item has as its [children] exactly what the
      item's own visitor gathered, in order, from the item's children;
      for an item that holds a nested list of items, that is the
      concatenation, in the nested items' order, of what each of them
      converts to.
    - The entry of a captioned bullet list has as its [children] the
      concatenation, in the items' order, of what each item converts
      to. *)
Theorem C6_children_keep_sibling_order :
  (forall self v i l1 l2 v',
      walk_siblings self v i (l1 ++ l2) = Ok v' ->
      exists v1 es1 es2,
        walk_siblings self v i l1 = Ok v1 /\
        _children v1 = _children v ++ es1 /\
        _children v' = _children v ++ es1 ++ es2) /\
  (forall v parent self cur cs,
      walk v parent self (paragraph cs) = walk_siblings self v 0 cs /\
      walk v parent self (compact_paragraph cs) = walk_siblings self v 0 cs /\
      (_prev_caption v = None ->
       walk v parent self (bullet_list cur cs) = walk_siblings self v 0 cs)) /\
  (forall self v i items,
      forallb is_list_item items = true ->
      forallb (visitable (_exclude_local v)) items = true ->
      exists v' ess,
        walk_siblings self v i items = Ok v' /\
        Forall2 (item_converts (_exclude_local v)) items ess /\
        _children v' = _children v ++ List.concat ess) /\
  (forall cur items e,
      forallb is_list_item items = true ->
      forallb (visitable e) items = true ->
      exists ess,
        _get_mkdocs_toc (bullet_list cur items) e = Ok (List.concat ess) /\
        Forall2 (item_converts e) items ess) /\
  (forall v parent self cur cs,
      visitable (_exclude_local v) (list_item cur cs) = true ->
      exists v' cv es,
        walk v parent self (list_item cur cs) = Ok v' /\
        walk_siblings self (child_visitor_for (_exclude_local v) cur) 0 cs
        = Ok cv /\
        _children v' = _children v ++ es /\
        List.length es
        = (if _exclude_local v && negb (links_page (list_item cur cs))
           then 0%nat else 1%nat) /\
        Forall (fun x => children x = _children cv) es) /\
  (forall v parent self cur refs below_current items,
      forallb is_reference refs = true ->
      forallb is_list_item items = true ->
      visitable (_exclude_local v)
        (nested_item cur refs below_current items) = true ->
      exists v' es ess,
        walk v parent self (nested_item cur refs below_current items)
        = Ok v' /\
        _children v' = _children v ++ es /\
        List.length es
        = (if _exclude_local v
              && negb (links_page (nested_item cur refs below_current items))
           then 0%nat else 1%nat) /\
        Forall2 (item_converts (_exclude_local v)) items ess /\
        Forall (fun x => children x = List.concat ess) es) /\
  (forall self v i cap cur items,
      forallb is_list_item items = true ->
      forallb (visitable (_exclude_local v)) items = true ->
      exists v' ess x,
        walk_siblings self v i [caption cap; bullet_list cur items] = Ok v' /\
        Forall2 (item_converts (_exclude_local v)) items ess /\
        _children v' = _children v ++ [x] /\
        children x = List.concat ess).
Proof.
  split; [|split; [|split; [|split; [|split; [|split]]]]].
  - intros self v i l1 l2 v' H.
    rewrite walk_siblings_app in H.
    destruct (walk_siblings self v i l1) as [v1|x] eqn:W1;
      cbn [Py.bind] in H; [|discriminate].
    destruct (walk_siblings_extends _ _ _ _ _ W1) as (_ & _ & es1 & C1).
    destruct (walk_siblings_extends _ _ _ _ _ H) as (_ & _ & es2 & C2).
    exists v1, es1, es2. repeat split; auto.
    rewrite C2, C1. now rewrite app_assoc.
  - intros v parent self cur cs. split; [reflexivity|split; [reflexivity|]].
    intros P. rewrite walk_bullet_list_no_caption by exact P.
    apply walk_kids_siblings.
  - intros self v i items L V.
    destruct (walk_list_items_counted self items v i L V)
      as (v' & ess & W & F & C & _).
    now exists v', ess.
  - intros cur items e L V.
    destruct (walk_list_items_counted [] items (new_TocVisitor e) 0 L V)
      as (v' & ess & W & F & C & _).
    exists ess. split; [|exact F].
    unfold _get_mkdocs_toc, _get_mkdocs_toc_at.
    rewrite walk_bullet_list_no_caption by reflexivity.
    rewrite walk_kids_siblings, W. simpl. now rewrite C.
  - intros v parent self cur cs V.
    exact (walk_list_item_children v parent self cur cs V).
  - intros v parent self cur refs below_current items R L V.
    exact (walk_nested_item_children v parent self cur refs below_current
             items R L V).
  - intros self v i cap cur items L V.
    exact (walk_group_children self v i cap cur items L V).
Qed.

Lemma C6_witness :
  (exists v1 es1 es2,
      walk_siblings [] (new_TocVisitor false) 0 [toc_item "a.html" "A"]
      = Ok v1 /\
      _children v1 = [] ++ es1 /\
      _children
        (absorb [toc_leaf "a.html" "A"; toc_leaf "#b" "B"]
           (new_TocVisitor false))
      = [] ++ es1 ++ es2) /\
  walk (new_TocVisitor false) None [] (bullet_list false [toc_item "#b" "B"])
  = walk_siblings [] (new_TocVisitor false) 0 [toc_item "#b" "B"] /\
  (exists v' ess,
      walk_siblings [] (new_TocVisitor true) 0
        [toc_item "a.html" "A"; toc_item "#b" "B"] = Ok v' /\
      Forall2 (item_converts true)
        [toc_item "a.html" "A"; toc_item "#b" "B"] ess /\
      _children v' = [] ++ List.concat ess) /\
  (exists ess,
      _get_mkdocs_toc
        (bullet_list false [toc_item "a.html" "A"; toc_item "#b" "B"]) true
      = Ok (List.concat ess) /\
      Forall2 (item_converts true)
        [toc_item "a.html" "A"; toc_item "#b" "B"] ess) /\
  (exists v' cv es,
      walk (new_TocVisitor false) None []
        (list_item false
           [compact_paragraph [reference (Some "a.html") [Text "A"]];
            bullet_list false [toc_item "b.html" "B"; toc_item "c.html" "C"]])
      = Ok v' /\
      walk_siblings [] (new_TocVisitor false) 0
        [compact_paragraph [reference (Some "a.html") [Text "A"]];
         bullet_list false [toc_item "b.html" "B"; toc_item "c.html" "C"]]
      = Ok cv /\
      _children v' = [] ++ es /\
      List.length es = 1%nat /\
      Forall (fun x => children x = _children cv) es) /\
  (exists v' es ess,
      walk (new_TocVisitor true) None []
        (nested_item false [reference (Some "a.html") [Text "A"]] false
           [toc_item "b.html" "B"; toc_item "#c" "C"]) = Ok v' /\
      _children v' = [] ++ es /\
      List.length es = 1%nat /\
      Forall2 (item_converts true)
        [toc_item "b.html" "B"; toc_item "#c" "C"] ess /\
      Forall (fun x => children x = List.concat ess) es) /\
  (exists v' ess x,
      walk_siblings [] (new_TocVisitor false) 0
        [caption [Text "Chapter 1"];
         bullet_list false [toc_item "a.html" "A"; toc_item "#b" "B"]]
      = Ok v' /\
      Forall2 (item_converts false)
        [toc_item "a.html" "A"; toc_item "#b" "B"] ess /\
      _children v' = [] ++ [x] /\
      children x = List.concat ess).
Proof.
  split; [|split; [|split; [|split; [|split; [|split]]]]].
  - exact (proj1 C6_children_keep_sibling_order
             [] (new_TocVisitor false) 0%nat
             [toc_item "a.html" "A"] [toc_item "#b" "B"]
             (absorb [toc_leaf "a.html" "A"; toc_leaf "#b" "B"]
                (new_TocVisitor false))
             eq_refl).
  - exact (proj2 (proj2 (proj1 (proj2 C6_children_keep_sibling_order)
                           (new_TocVisitor false) None [] false
                           [toc_item "#b" "B"]))
             eq_refl).
  - exact (proj1 (proj2 (proj2 C6_children_keep_sibling_order))
             [] (new_TocVisitor true) 0%nat
             [toc_item "a.html" "A"; toc_item "#b" "B"]
             eq_refl eq_refl).
  - exact (proj1 (proj2 (proj2 (proj2 C6_children_keep_sibling_order)))
             false [toc_item "a.html" "A"; toc_item "#b" "B"] true
             eq_refl eq_refl).
  - exact (proj1 (proj2 (proj2 (proj2 (proj2
                    C6_children_keep_sibling_order))))
             (new_TocVisitor false) None [] false
             [compact_paragraph [reference (Some "a.html") [Text "A"]];
              bullet_list false
                [toc_item "b.html" "B"; toc_item "c.html" "C"]]
             eq_refl).
  - exact (proj1 (proj2 (proj2 (proj2 (proj2 (proj2
                    C6_children_keep_sibling_order)))))
             (new_TocVisitor true) None [] false
             [reference (Some "a.html") [Text "A"]] false
             [toc_item "b.html" "B"; toc_item "#c" "C"]
             eq_refl eq_refl eq_refl).
  - exact (proj2 (proj2 (proj2 (proj2 (proj2 (proj2
                    C6_children_keep_sibling_order)))))
             [] (new_TocVisitor false) 0%nat [Text "Chapter 1"] false
             [toc_item "a.html" "A"; toc_item "#b" "B"]
             eq_refl eq_refl).
Defined.

(** ** C7: conflicting reformatting options *)

(** C7.  With [html_minify] and [html_prettify] both set, [add_html_link]
    raises [ValueError] and leaves [site_pages] as it was, so that after
    any number of calls [reformat_pages] rewrites no file, whether or not
    it is told of the exception and whatever files there are; with at
    most one of them set the hook returns normally. *)
Theorem C7_conflicting_options_raise :
  (forall app pagename,
      Hooks.html_minify (Hooks.html_theme_options app) = true ->
      Hooks.html_prettify (Hooks.html_theme_options app) = true ->
      snd (Hooks.add_html_link app pagename) = Raise ValueError /\
      Hooks.site_pages (fst (Hooks.add_html_link app pagename))
      = Hooks.site_pages app) /\
  (forall is_file options suffix dir pagenames exception,
      Hooks.html_minify options = true ->
      Hooks.html_prettify options = true ->
      snd (fst (Hooks.reformat_pages is_file
                  (Hooks.add_html_links (Hooks.setup options suffix dir)
                     pagenames)
                  exception)) = []) /\
  (forall app pagename,
      Hooks.html_minify (Hooks.html_theme_options app)
      && Hooks.html_prettify (Hooks.html_theme_options app) = false ->
      snd (Hooks.add_html_link app pagename) = Ok tt).
Proof.
  assert (A : forall app pagename,
      Hooks.html_minify (Hooks.html_theme_options app) = true ->
      Hooks.html_prettify (Hooks.html_theme_options app) = true ->
      snd (Hooks.add_html_link app pagename) = Raise ValueError /\
      Hooks.site_pages (fst (Hooks.add_html_link app pagename))
      = Hooks.site_pages app /\
      Hooks.html_theme_options (fst (Hooks.add_html_link app pagename))
      = Hooks.html_theme_options app).
  { intros app pagename M P. unfold Hooks.add_html_link.
    destruct (nonempty (Hooks.site_url (Hooks.html_theme_options app)));
      cbn [Hooks.append_sitemap_link Hooks.html_theme_options];
      rewrite M, P; simpl; auto. }
  split; [|split].
  - intros app pagename M P. destruct (A app pagename M P) as (R & S & _).
    now split.
  - intros is_file options suffix dir pagenames exception M P.
    assert (E : forall app,
        Hooks.html_minify (Hooks.html_theme_options app) = true ->
        Hooks.html_prettify (Hooks.html_theme_options app) = true ->
        Hooks.site_pages (Hooks.add_html_links app pagenames)
        = Hooks.site_pages app).
    { unfold Hooks.add_html_links.
      induction pagenames as [|p ps IH]; intros app Ma Pa; [reflexivity|].
      simpl. destruct (A app p Ma Pa) as (_ & S & O).
      rewrite IH; [exact S| |]; now rewrite O. }
    specialize (E (Hooks.setup options suffix dir) M P). simpl in E.
    unfold Hooks.reformat_pages. rewrite E.
    now destruct exception.
  - intros app pagename H. unfold Hooks.add_html_link.
    destruct (nonempty (Hooks.site_url (Hooks.html_theme_options app)));
      cbn [Hooks.append_sitemap_link Hooks.html_theme_options];
      rewrite H;
      now destruct (Hooks.html_minify (Hooks.html_theme_options app)
                    || Hooks.html_prettify (Hooks.html_theme_options app)).
Qed.

Lemma C7_witness :
  (snd (Hooks.add_html_link
          (Hooks.setup conflicting_options ".html" "_build") "index")
   = Raise ValueError /\
   Hooks.site_pages
     (fst (Hooks.add_html_link
             (Hooks.setup conflicting_options ".html" "_build") "index"))
   = []) /\
  snd (fst (Hooks.reformat_pages (fun _ => true)
              (Hooks.add_html_links
                 (Hooks.setup conflicting_options ".html" "_build")
                 ["index"; "usage"])
              None)) = [] /\
  snd (Hooks.add_html_link
         (Hooks.setup minify_options ".html" "_build") "index") = Ok tt.
Proof.
  split; [|split].
  - exact (proj1 C7_conflicting_options_raise
             (Hooks.setup conflicting_options ".html" "_build") "index"
             eq_refl eq_refl).
  - exact (proj1 (proj2 C7_conflicting_options_raise)
             (fun _ => true) conflicting_options ".html" "_build"
             ["index"; "usage"] None eq_refl eq_refl).
  - exact (proj2 (proj2 C7_conflicting_options_raise)
             (Hooks.setup minify_options ".html" "_build") "index" eq_refl).
Defined.

(** ** C8: converting twice *)

(** C8.  The output is determined by the structure of the tree and by
    [exclude_local]: the same tree converted a second time, as other
    objects at another place, gives the same result (the same entries, or
    the same exception). *)
Theorem C8_conversion_is_deterministic :
  forall toc_node exclude_local parent1 self1 parent2 self2,
    _get_mkdocs_toc_at parent1 self1 toc_node exclude_local
    = _get_mkdocs_toc_at parent2 self2 toc_node exclude_local.
Proof.
  intros toc_node e p1 s1 p2 s2. unfold _get_mkdocs_toc_at.
  pose proof (walk_placement toc_node (new_TocVisitor e) p1 p2 s1 s2
                eq_refl) as H.
  destruct (walk (new_TocVisitor e) p1 s1 toc_node) as [a|x],
           (walk (new_TocVisitor e) p2 s2 toc_node) as [b|y];
    simpl in *; try contradiction; [|congruence].
  unfold accumulated in H. inversion H. congruence.
Qed.

(** ** C9: several references in one list item *)

(** C9.  Every visit of a reference overwrites the title and url the
    visitor holds; the entry of a list item therefore carries those of
    the last reference its own visitor was dispatched on.  (References
    below a nested list item or in a captioned bullet list are skipped by
    that visitor: they go to the visitors started there.) *)
Theorem C9_last_reference_wins :
  (forall v u t v' f,
      visit_reference v u t = Ok (v', f) ->
      _rendered_title v' = Some (_render_title t) /\ _url v' = u) /\
  (forall v parent self cur cs u t,
      last_dispatched cs = Some (u, t) ->
      visitable (_exclude_local v) (list_item cur cs) = true ->
      exists v' es,
        walk v parent self (list_item cur cs) = Ok v' /\
        _children v' = _children v ++ es /\
        Forall (fun e => title e = Some (_render_title t) /\ url e = u) es /\
        (_exclude_local v = false -> List.length es = 1%nat)).
Proof.
  split.
  - intros v u t v' f H.
    destruct (visit_reference_sets _ _ _ _ _ H) as (T & U & _). now split.
  - intros v parent self cur cs u t L V.
    destruct (walk_ok_of_visitable _ v parent self V) as [v' W].
    pose proof W as W'.
    rewrite walk_list_item_alone in W'.
    destruct (_get_mkdocs_toc (list_item cur cs) (_exclude_local v))
      as [es|x] eqn:C; simpl in W'; [|discriminate].
    inversion W'; subst. clear W'.
    destruct (list_item_entries _ _ _ _ C) as (_ & N & _).
    exists (absorb es v), es. repeat split; auto.
    + apply absorb_extends.
    + apply (list_item_entries_reference _ _ _ _ _ _ L C).
Qed.

Lemma C9_witness :
  exists v' es,
    walk (new_TocVisitor false) None [] two_references_item = Ok v' /\
    _children v' = [] ++ es /\
    Forall (fun e => title e = Some (_render_title [Text "Second"]) /\
                     url e = Some "second.html") es /\
    (false = false -> List.length es = 1%nat).
Proof.
  exact (proj2 C9_last_reference_wins
           (new_TocVisitor false) None [] false
           [compact_paragraph
              [reference (Some "first.html") [Text "First"];
               reference (Some "second.html") [Text "Second"]];
            bullet_list false [toc_item "below.html" "Below"]]
           (Some "second.html") [Text "Second"] eq_refl eq_refl).
Defined.

(** ** C10: one caption, one list *)

(** C10.  A bullet list met while the caption of its own parent is pending
    is grouped under it, and the caption is pending no longer: a second
    bullet list under that parent has its children walked by the same
    visitor, without an entry of its own.  A bullet list whose parent is
    not the pending caption's is not grouped under it either. *)
Theorem C10_caption_groups_one_list :
  (forall v parent self cur cs prev v',
      _prev_caption v = Some prev ->
      same_object (caption_parent prev) parent = true ->
      walk v parent self (bullet_list cur cs) = Ok v' ->
      _prev_caption v' = None /\
      (exists e,
          _children v' = _children v ++ [e] /\
          title e = Some (_render_title (caption_children prev))) /\
      (forall self2 cur2 cs2,
          walk v' parent self2 (bullet_list cur2 cs2)
          = walk_kids self2 v' cs2)) /\
  (forall v parent self cur cs prev,
      _prev_caption v = Some prev ->
      same_object (caption_parent prev) parent = false ->
      walk v parent self (bullet_list cur cs) = walk_kids self v cs) /\
  (forall self v i cap cur1 items1 cur2 items2 rest,
      walk_siblings self v i
        (caption cap :: bullet_list cur1 items1
           :: bullet_list cur2 items2 :: rest)
      = (cv <- walk_kids (S i :: self)
                 (child_visitor_for (_exclude_local v) cur1) items1 ;;
         v2 <- walk_kids (S (S i) :: self) (close_group cap cv v) items2 ;;
         walk_siblings self v2 (S (S (S i))) rest)).
Proof.
  split; [|split].
  - intros v parent self cur cs prev v' P S W.
    rewrite (walk_bullet_list_grouped _ _ _ _ _ _ P S) in W.
    destruct (walk_kids self _ cs) as [cv|x]; simpl in W; [|discriminate].
    inversion W; subst. clear W.
    assert (N : _prev_caption (close_group (caption_children prev) cv v)
                = None)
      by (unfold close_group; now destruct (negb (_local_only cv))).
    repeat split.
    + exact N.
    + exists (group_entry (caption_children prev) cv). split; [|reflexivity].
      unfold close_group. now destruct (negb (_local_only cv)).
    + intros self2 cur2 cs2. now apply walk_bullet_list_no_caption.
  - intros v parent self cur cs prev P S.
    now apply (walk_bullet_list_other_parent _ _ _ _ _ prev).
  - intros self v i cap cur1 items1 cur2 items2 rest.
    rewrite walk_caption_then_list.
    destruct (walk_kids (S i :: self) _ items1) as [cv|x];
      cbn [Py.bind]; [|reflexivity].
    rewrite walk_siblings_cons.
    rewrite walk_bullet_list_no_caption; [reflexivity|].
    unfold close_group. now destruct (negb (_local_only cv)).
Qed.

Lemma C10_witness :
  (_prev_caption
     (close_group [Text "Chapter 1"]
        (absorb [toc_leaf "a.html" "A"] (new_TocVisitor false))
        (new_TocVisitor false)) = None /\
   (exists e,
       _children
         (close_group [Text "Chapter 1"]
            (absorb [toc_leaf "a.html" "A"] (new_TocVisitor false))
            (new_TocVisitor false))
       = [] ++ [e] /\
       title e = Some (_render_title [Text "Chapter 1"])) /\
   (forall self2 cur2 cs2,
       walk (close_group [Text "Chapter 1"]
               (absorb [toc_leaf "a.html" "A"] (new_TocVisitor false))
               (new_TocVisitor false))
         (Some []) self2 (bullet_list cur2 cs2)
       = walk_kids self2
           (close_group [Text "Chapter 1"]
              (absorb [toc_leaf "a.html" "A"] (new_TocVisitor false))
              (new_TocVisitor false)) cs2)) /\
  walk (set_prev_caption
          (Some {| caption_children := [Text "Chapter 1"];
                   caption_parent := Some [] |})
          (new_TocVisitor false))
    (Some [0%nat]) [0%nat; 0%nat]
    (bullet_list false [toc_item "a.html" "A"])
  = walk_kids [0%nat; 0%nat]
      (set_prev_caption
         (Some {| caption_children := [Text "Chapter 1"];
                  caption_parent := Some [] |})
         (new_TocVisitor false))
      [toc_item "a.html" "A"].
Proof.
  split.
  - exact (proj1 C10_caption_groups_one_list
             (set_prev_caption
                (Some {| caption_children := [Text "Chapter 1"];
                         caption_parent := Some [] |})
                (new_TocVisitor false))
             (Some []) [1%nat] false [toc_item "a.html" "A"]
             {| caption_children := [Text "Chapter 1"];
                caption_parent := Some [] |}
             (close_group [Text "Chapter 1"]
                (absorb [toc_leaf "a.html" "A"] (new_TocVisitor false))
                (new_TocVisitor false))
             eq_refl eq_refl eq_refl).
  - exact (proj1 (proj2 C10_caption_groups_one_list)
             (set_prev_caption
                (Some {| caption_children := [Text "Chapter 1"];
                         caption_parent := Some [] |})
                (new_TocVisitor false))
             (Some [0%nat]) [0%nat; 0%nat] false [toc_item "a.html" "A"]
             {| caption_children := [Text "Chapter 1"];
                caption_parent := Some [] |}
             eq_refl eq_refl).
Defined.

(** * Further properties *)

(** ** What makes the converter raise *)

Lemma walk_nodes_raises w cs :
  (forall v i c v', w v i c = Ok v' -> _exclude_local v' = _exclude_local v) ->
  Forall (fun c => forall v i x, w v i c = Raise x ->
            x = NotImplementedError \/
            (x = AttributeError /\ _exclude_local v = true)) cs ->
  forall v i x, walk_nodes w v i cs = Raise x ->
    x = NotImplementedError \/
    (x = AttributeError /\ _exclude_local v = true).
Proof.
  intros Hex. induction 1 as [|c cs Hc _ IH]; intros v i x H; simpl in H.
  - discriminate.
  - destruct (w v i c) as [v1|y] eqn:W; simpl in H.
    + apply IH in H. apply Hex in W. now rewrite W in H.
    + inversion H; subst. now apply (Hc v i).
Qed.

Lemma walk_raises n : forall v parent self x,
  walk v parent self n = Raise x ->
  x = NotImplementedError \/
  (x = AttributeError /\ _exclude_local v = true).
Proof.
  induction n as [t|cs IH|u cs IH|cs IH|b cs IH|b cs IH|cs IH|cs IH|cs IH]
    using node_tree_ind; intros v parent self x H;
    try (assert (K : forall a y, walk_kids self a cs = Raise y ->
            y = NotImplementedError \/
            (y = AttributeError /\ _exclude_local a = true));
         [ intros a y; apply walk_nodes_raises;
           [ intros z i c z' Hz; apply walk_extends in Hz; apply Hz
           | eapply Forall_impl; [|exact IH];
             intros c Hc z i y'; apply Hc ] | ]).
  - inversion H. now left.
  - inversion H. now left.
  - simpl in H. unfold visit_reference in H. simpl in H.
    destruct (_exclude_local v) eqn:E; [|discriminate].
    destruct u as [u|].
    + destruct (str_find "#" u =? -1); discriminate.
    + inversion H. right. now split.
  - discriminate.
  - rewrite walk_bullet_list_eq in H. unfold visit_bullet_list in H.
    destruct (_prev_caption v) as [prev|]; [|now apply K].
    destruct (same_object (caption_parent prev) parent); [|now apply K].
    simpl in H.
    set (fv := if b then _ else _) in H.
    destruct (walk_kids self fv cs) as [cv|y] eqn:W; simpl in H;
      [discriminate|].
    inversion H; subst. apply K in W.
    unfold fv in W. now rewrite exclude_local_fresh in W.
  - rewrite walk_list_item_eq in H. unfold visit_list_item in H.
    set (fv := if b then _ else _) in H.
    destruct (walk_kids self fv cs) as [cv|y] eqn:W; simpl in H.
    + destruct (_exclude_local v && _local_only cv); discriminate.
    + inversion H; subst. apply K in W.
      unfold fv in W. now rewrite exclude_local_fresh in W.
  - discriminate.
  - now apply K.
  - now apply K.
Qed.

Lemma visitable_without_exclude_local n :
  visitable true n = true -> visitable false n = true.
Proof.
  induction n as [t|cs IH|u cs IH|cs IH|b cs IH|b cs IH|cs IH|cs IH|cs IH]
    using node_tree_ind; simpl; auto;
    rewrite !forallb_forall; intros H c Hc;
    rewrite Forall_forall in IH; auto.
Qed.

(** X1.  The converter raises nothing but [NotImplementedError] (a node
    class without [visit_] method was dispatched on) and, only when local
    links are excluded, [AttributeError] (a reference without url); a
    tree it converts with [exclude_local] it also converts without. *)
Theorem X1_converter_failure_modes :
  forall toc_node,
    (forall exclude_local x,
        _get_mkdocs_toc toc_node exclude_local = Raise x ->
        x = NotImplementedError \/
        (x = AttributeError /\ exclude_local = true)) /\
    (forall es,
        _get_mkdocs_toc toc_node true = Ok es ->
        exists es', _get_mkdocs_toc toc_node false = Ok es').
Proof.
  intros n. split.
  - intros e x H. unfold _get_mkdocs_toc, _get_mkdocs_toc_at in H.
    destruct (walk (new_TocVisitor e) None [] n) as [v|y] eqn:W;
      simpl in H; [discriminate|].
    inversion H; subst. apply (walk_raises _ _ _ _ _ W).
  - intros es H.
    assert (V : visitable true n = true).
    { change (visitable (_exclude_local (new_TocVisitor true)) n = true).
      rewrite <- (walk_is_ok n (new_TocVisitor true) None []).
      unfold _get_mkdocs_toc, _get_mkdocs_toc_at in H.
      now destruct (walk (new_TocVisitor true) None [] n). }
    apply visitable_without_exclude_local in V.
    change (visitable (_exclude_local (new_TocVisitor false)) n = true) in V.
    rewrite <- (walk_is_ok n (new_TocVisitor false) None []) in V.
    unfold _get_mkdocs_toc, _get_mkdocs_toc_at.
    destruct (walk (new_TocVisitor false) None [] n) as [v|y];
      [|discriminate].
    now exists (_children v).
Qed.

Lemma X1_witness :
  (AttributeError = NotImplementedError \/
   (AttributeError = AttributeError /\ true = true)) /\
  (exists es', _get_mkdocs_toc mixed_group false = Ok es').
Proof.
  split.
  - exact (proj1 (X1_converter_failure_modes missing_url_tree)
             true AttributeError eq_refl).
  - exact (proj2 (X1_converter_failure_modes mixed_group) _ eq_refl).
Defined.

(** ** Toctrees *)

Lemma walk_nodes_map_ext (f : node -> node) w cs :
  Forall (fun c => forall v i, w v i (f c) = w v i c) cs ->
  forall v i, walk_nodes w v i (map f cs) = walk_nodes w v i cs.
Proof.
  induction 1 as [|c cs Hc _ IH]; intros v i; simpl; [reflexivity|].
  rewrite Hc. destruct (w v i c) as [v1|x]; simpl; auto.
Qed.

Lemma walk_clear_toctrees n : forall v parent self,
  walk v parent self (clear_toctrees n) = walk v parent self n.
Proof.
  induction n as [t|cs IH|u cs IH|cs IH|b cs IH|b cs IH|cs IH|cs IH|cs IH]
    using node_tree_ind; intros v parent self; try reflexivity;
    assert (K : forall a,
              walk_kids self a (map clear_toctrees cs) = walk_kids self a cs)
      by (intros a; apply walk_nodes_map_ext;
          eapply Forall_impl; [|exact IH]; intros c Hc x i; apply Hc);
    simpl clear_toctrees.
  - rewrite !walk_bullet_list_eq. unfold visit_bullet_list.
    destruct (_prev_caption v) as [prev|]; [|apply K].
    destruct (same_object (caption_parent prev) parent); [|apply K].
    rewrite K. cbv zeta.
    destruct (walk_kids self _ cs) as [cv|x]; reflexivity.
  - rewrite !walk_list_item_eq. unfold visit_list_item. rewrite K.
    destruct (walk_kids self _ cs) as [cv|x]; [|reflexivity].
    cbn [Py.bind]. now destruct (_exclude_local v && _local_only cv).
  - apply K.
  - apply K.
Qed.

(** X2.  What stands below a toctree never reaches the output, nor makes
    the converter raise: the tree converts as it does with the children
    of every toctree taken away. *)
Theorem X2_toctree_children_are_ignored :
  forall toc_node exclude_local,
    _get_mkdocs_toc (clear_toctrees toc_node) exclude_local
    = _get_mkdocs_toc toc_node exclude_local.
Proof.
  intros n e. unfold _get_mkdocs_toc, _get_mkdocs_toc_at.
  now rewrite walk_clear_toctrees.
Qed.

(** ** Excluding local links only takes entries away *)

Lemma forest_pruned_app a a' :
  forest_pruned a a' ->
  forall b b', forest_pruned b b' -> forest_pruned (a ++ b) (a' ++ b').
Proof.
  induction 1 as [|e' es es' _ IH|e e' es es' He _ IH]; intros b b' Hb;
    simpl; auto.
  - apply forest_pruned_drop. now apply IH.
  - apply forest_pruned_keep; auto.
Qed.

Lemma prunes_fresh (b : bool) :
  prunes (if b then set_active true (new_TocVisitor true)
          else new_TocVisitor true)
         (if b then set_active true (new_TocVisitor false)
          else new_TocVisitor false).
Proof.
  destruct b; repeat split; simpl; auto; apply forest_pruned_nil.
Qed.

Lemma walk_nodes_prunes w cs :
  Forall (fun c => forall vt vf i vt', prunes vt vf ->
            w vt i c = Ok vt' ->
            exists vf', w vf i c = Ok vf' /\ prunes vt' vf') cs ->
  forall vt vf i vt', prunes vt vf ->
    walk_nodes w vt i cs = Ok vt' ->
    exists vf', walk_nodes w vf i cs = Ok vf' /\ prunes vt' vf'.
Proof.
  induction 1 as [|c cs Hc _ IH]; intros vt vf i vt' P H; simpl in H.
  - inversion H; subst. exists vf. now split.
  - destruct (w vt i c) as [vt1|x] eqn:W; simpl in H; [|discriminate].
    destruct (Hc _ _ _ _ P W) as (vf1 & W1 & P1).
    destruct (IH _ _ _ _ P1 H) as (vf' & W' & P').
    exists vf'. split; [|exact P']. simpl. now rewrite W1.
Qed.

Lemma walk_prunes n : forall vt vf parent self vt',
  prunes vt vf ->
  walk vt parent self n = Ok vt' ->
  exists vf', walk vf parent self n = Ok vf' /\ prunes vt' vf'.
Proof.
  induction n as [t|cs IH|u cs IH|cs IH|b cs IH|b cs IH|cs IH|cs IH|cs IH]
    using node_tree_ind; intros vt vf parent self vt' P H;
    try discriminate;
    try (assert (K : forall at_ af at', prunes at_ af ->
            walk_kids self at_ cs = Ok at' ->
            exists af', walk_kids self af cs = Ok af' /\ prunes at' af');
         [ intros at_ af at'; apply walk_nodes_prunes;
           eapply Forall_impl; [|exact IH];
           intros c Hc xt xf i xt'; apply Hc | ]);
    pose proof P as (Et & Ef & Pc & Pt & Pu & Pa & Pf).
  - simpl in H. unfold visit_reference in H. simpl in H. rewrite Et in H.
    destruct u as [u|]; [|discriminate].
    exists (set_reference (Some (_render_title cs)) (Some u) vf). split.
    + simpl. unfold visit_reference. simpl. now rewrite Ef.
    + destruct (str_find "#" u =? -1); inversion H; subst;
        repeat split; simpl; auto.
  - simpl in H. inversion H; subst.
    eexists. split; [reflexivity|].
    repeat split; simpl; auto.
  - rewrite walk_bullet_list_eq in *. unfold visit_bullet_list in *.
    rewrite <- Pc.
    destruct (_prev_caption vt) as [prev|]; [|now apply (K vt)].
    destruct (same_object (caption_parent prev) parent);
      [|now apply (K vt)].
    simpl in H. rewrite Et in H. simpl. rewrite Ef.
    destruct (walk_kids self _ cs) as [ct|x] eqn:W; simpl in H;
      [|discriminate].
    destruct (K _ _ _ (prunes_fresh b) W) as (cf & Wf & Pk).
    rewrite Wf. simpl.
    destruct Pk as (_ & _ & _ & _ & _ & Ka & Kf).
    eexists. split; [reflexivity|].
    inversion H; subst. clear H.
    assert (G : forest_pruned
                  (_children vt
                   ++ [{| title := Some (_render_title (caption_children prev));
                          url := first_url (_children ct);
                          children := _children ct;
                          active := _active ct |}])
                  (_children vf
                   ++ [{| title := Some (_render_title (caption_children prev));
                          url := first_url (_children cf);
                          children := _children cf;
                          active := _active cf |}])).
    { apply forest_pruned_app; auto.
      apply forest_pruned_keep; [|apply forest_pruned_nil].
      rewrite Ka. apply entry_pruned_intro; auto. }
    destruct (negb (_local_only ct)), (negb (_local_only cf));
      repeat split; simpl; auto.
  - rewrite walk_list_item_eq in *. unfold visit_list_item in *.
    rewrite Et in H. rewrite Ef.
    destruct (walk_kids self _ cs) as [ct|x] eqn:W; simpl in H;
      [|discriminate].
    destruct (K _ _ _ (prunes_fresh b) W) as (cf & Wf & Pk).
    rewrite Wf. simpl.
    destruct Pk as (_ & _ & _ & Kt & Ku & Ka & Kf).
    eexists. split; [reflexivity|].
    destruct (_local_only ct); inversion H; subst; clear H;
      repeat split; simpl; auto.
    + rewrite <- (app_nil_r (_children vt')).
      apply forest_pruned_app; auto.
      apply forest_pruned_drop, forest_pruned_nil.
    + apply forest_pruned_app; auto.
      apply forest_pruned_keep; [|apply forest_pruned_nil].
      unfold get_result. rewrite Kt, Ku, Ka.
      apply entry_pruned_intro; auto.
  - simpl in H. inversion H; subst. exists vf. now split.
  - now apply (K vt).
  - now apply (K vt).
Qed.

(** X3.  Whatever the converter returns with [exclude_local], it returns
    the same forest without it, some entries taken out: no entry is added
    or moved, titles and flags are untouched, and a url changes only to
    that of the entry's first child left. *)
Theorem X3_excluding_local_only_prunes :
  forall toc_node es,
    _get_mkdocs_toc toc_node true = Ok es ->
    exists es',
      _get_mkdocs_toc toc_node false = Ok es' /\ forest_pruned es es'.
Proof.
  intros n es H. unfold _get_mkdocs_toc, _get_mkdocs_toc_at in *.
  destruct (walk (new_TocVisitor true) None [] n) as [vt|x] eqn:W;
    simpl in H; [|discriminate].
  inversion H; subst.
  destruct (walk_prunes n _ _ _ _ _ (prunes_fresh false) W)
    as (vf & Wf & P).
  simpl in Wf. rewrite Wf. simpl.
  exists (_children vf). split; [reflexivity|]. apply P.
Qed.

Lemma X3_witness :
  exists es',
    _get_mkdocs_toc mixed_group false = Ok es' /\
    forest_pruned
      [{| title := Some "Chapter 1"; url := None;
          children := []; active := false |}]
      es'.
Proof.
  exact (X3_excluding_local_only_prunes mixed_group _ eq_refl).
Defined.

(** ** An item without a reference of its own *)

Lemma list_item_entries_no_reference cur cs e es :
  last_dispatched cs = None ->
  _get_mkdocs_toc (list_item cur cs) e = Ok es ->
  Forall (fun x => title x = None /\ url x = None) es.
Proof.
  intros L. unfold _get_mkdocs_toc, _get_mkdocs_toc_at.
  rewrite walk_list_item_eq. unfold visit_list_item.
  set (fv := if cur then _ else _).
  destruct (walk_kids [] fv cs) as [cv|x] eqn:K; simpl; [|discriminate].
  rewrite walk_kids_siblings in K.
  destruct (walk_siblings_dispatched _ _ _ _ _ K) as [_ Hh].
  assert (P : pending_of fv = None) by (unfold fv; now destruct cur).
  assert (Hf : held fv = (None, None)) by (unfold fv; now destruct cur).
  rewrite P, fold_left_hold in Hh.
  unfold last_dispatched in L. rewrite L, Hf in Hh.
  unfold held in Hh. injection Hh as Ht Hu.
  destruct (e && _local_only cv); simpl; intros H; injection H as <-.
  - constructor.
  - constructor; [|constructor]. simpl. now split.
Qed.

(** X4.  A list item whose own visitor is dispatched on no reference (its
    links all stand below nested items or in a captioned list) gets an
    entry with neither title nor url. *)
Theorem X4_item_without_reference_has_no_title :
  forall v parent self cur cs,
    last_dispatched cs = None ->
    visitable (_exclude_local v) (list_item cur cs) = true ->
    exists v' es,
      walk v parent self (list_item cur cs) = Ok v' /\
      _children v' = _children v ++ es /\
      Forall (fun e => title e = None /\ url e = None) es /\
      (_exclude_local v = false -> List.length es = 1%nat).
Proof.
  intros v parent self cur cs L V.
  destruct (walk_ok_of_visitable _ v parent self V) as [v' W].
  pose proof W as W'.
  rewrite walk_list_item_alone in W'.
  destruct (_get_mkdocs_toc (list_item cur cs) (_exclude_local v))
    as [es|x] eqn:C; simpl in W'; [|discriminate].
  inversion W'; subst. clear W'.
  destruct (list_item_entries _ _ _ _ C) as (_ & N & _).
  exists (absorb es v), es. repeat split; auto.
  - apply absorb_extends.
  - apply (list_item_entries_no_reference _ _ _ _ L C).
Qed.

Lemma X4_witness :
  exists v' es,
    walk (new_TocVisitor false) None []
      (list_item false [bullet_list false [toc_item "a.html" "A"]]) = Ok v' /\
    _children v' = [] ++ es /\
    Forall (fun e => title e = None /\ url e = None) es /\
    (false = false -> List.length es = 1%nat).
Proof.
  exact (X4_item_without_reference_has_no_title
           (new_TocVisitor false) None [] false
           [bullet_list false [toc_item "a.html" "A"]] eq_refl eq_refl).
Defined.

(** ** A caption and a list that does not follow it directly *)

Lemma walk_keeps_caption n v parent self v' :
  keeps_caption n = true ->
  walk v parent self n = Ok v' ->
  _prev_caption v' = _prev_caption v.
Proof.
  destruct n as [t|cs|u cs|cs|b cs|b cs|cs|cs|cs]; try discriminate;
    intros _ H.
  - simpl in H.
    destruct (visit_reference v u cs) as [[a f]|x] eqn:R; simpl in H;
      [|discriminate].
    destruct (visit_reference_sets _ _ _ _ _ R) as (_ & _ & -> & P).
    now inversion H; subst.
  - rewrite walk_list_item_eq in H. unfold visit_list_item in H.
    destruct (walk_kids self _ cs) as [cv|x]; simpl in H; [|discriminate].
    destruct (_exclude_local v && _local_only cv); now inversion H; subst.
  - simpl in H. now inversion H; subst.
Qed.

Lemma walk_siblings_keep_caption self mid : forall v i v',
  forallb keeps_caption mid = true ->
  walk_siblings self v i mid = Ok v' ->
  _prev_caption v' = _prev_caption v.
Proof.
  induction mid as [|c mid IH]; intros v i v' Q H.
  - rewrite walk_siblings_nil in H. now inversion H; subst.
  - simpl in Q. apply andb_true_iff in Q. destruct Q as [Qc Q].
    rewrite walk_siblings_cons in H.
    destruct (walk v (Some self) (i :: self) c) as [v1|x] eqn:W;
      cbn [Py.bind] in H; [|discriminate].
    rewrite (IH _ _ _ Q H). now apply (walk_keeps_caption c _ _ _ _ Qc W).
Qed.

(** X5.  A caption titles the next bullet list under its parent also when
    references, list items or toctrees stand between the two: the list
    becomes one entry with the caption's text as title and the list's
    marker as flag, appended after what the nodes in between gave. *)
Theorem X5_caption_waits_for_its_list :
  forall self v i cap mid cur items,
    forallb keeps_caption mid = true ->
    forallb (visitable (_exclude_local v)) mid = true ->
    forallb (visitable (_exclude_local v)) items = true ->
    exists v' pre e,
      walk_siblings self v i (caption cap :: mid ++ [bullet_list cur items])
      = Ok v' /\
      _children v' = _children v ++ pre ++ [e] /\
      title e = Some (_render_title cap) /\
      active e = cur /\
      _prev_caption v' = None.
Proof.
  intros self v i cap mid cur items Q Vm Vi.
  rewrite walk_siblings_cons.
  set (v0 := set_prev_caption
               (Some {| caption_children := cap;
                        caption_parent := Some self |}) v).
  assert (Hc : walk v (Some self) (i :: self) (caption cap) = Ok v0)
    by reflexivity.
  rewrite Hc. cbn [Py.bind]. rewrite walk_siblings_app.
  pose proof (walk_siblings_is_ok self v0 (S i) mid) as Km.
  change (_exclude_local v0) with (_exclude_local v) in Km.
  rewrite Vm in Km.
  destruct (walk_siblings self v0 (S i) mid) as [v1|x] eqn:W1;
    [|discriminate].
  cbn [Py.bind]. rewrite walk_siblings_cons.
  pose proof (walk_siblings_keep_caption _ _ _ _ _ Q W1) as P1.
  destruct (walk_siblings_extends _ _ _ _ _ W1) as (E1 & _ & pre & C1).
  change (_children v0) with (_children v) in C1.
  change (_exclude_local v0) with (_exclude_local v) in E1.
  erewrite walk_bullet_list_grouped;
    [|exact P1|apply same_object_refl].
  cbn [caption_children _prev_caption v0 set_prev_caption].
  pose proof (walk_kids_is_ok (S i + List.length mid :: self)%nat
                (child_visitor_for (_exclude_local v1) cur) items) as Ki.
  assert (X : _exclude_local (child_visitor_for (_exclude_local v1) cur)
              = _exclude_local v) by (rewrite <- E1; apply exclude_local_fresh).
  rewrite X, Vi in Ki.
  destruct (walk_kids _ _ items) as [cv|x] eqn:W2; [|discriminate].
  cbn [Py.bind]. rewrite walk_siblings_nil.
  exists (close_group cap cv v1), pre, (group_entry cap cv).
  repeat split.
  - unfold close_group.
    destruct (negb (_local_only cv)); simpl; rewrite C1;
      now rewrite app_assoc.
  - apply walk_kids_extends in W2. destruct W2 as (_ & A & _).
    simpl. rewrite A. apply active_fresh.
  - unfold close_group. now destruct (negb (_local_only cv)).
Qed.

Lemma X5_witness :
  exists v' pre e,
    walk_siblings [] (new_TocVisitor false) 0
      (caption [Text "Guide"]
         :: [toctree [Text "hidden"]; toc_item "index.html" "Home"]
         ++ [bullet_list true [toc_item "intro.html" "Intro"]])
    = Ok v' /\
    _children v' = [] ++ pre ++ [e] /\
    title e = Some (_render_title [Text "Guide"]) /\
    active e = true /\
    _prev_caption v' = None.
Proof.
  exact (X5_caption_waits_for_its_list
           [] (new_TocVisitor false) 0%nat [Text "Guide"]
           [toctree [Text "hidden"]; toc_item "index.html" "Home"]
           true [toc_item "intro.html" "Intro"]
           eq_refl eq_refl eq_refl).
Defined.

(** ** Nothing is lost without pruning *)

Lemma count_forest_app a b :
  count_forest (a ++ b) = (count_forest a + count_forest b)%nat.
Proof.
  unfold count_forest. induction a as [|e a IH]; simpl; [reflexivity|].
  rewrite IH. lia.
Qed.

Lemma count_forest_one e :
  count_forest [e] = S (count_forest (children e)).
Proof.
  unfold count_forest. destruct e as [t u cs a]. simpl. lia.
Qed.

Lemma walk_nodes_counts w cs :
  Forall (fun c => no_caption c = true ->
            forall v i v', _exclude_local v = false ->
              _prev_caption v = None ->
              w v i c = Ok v' ->
              _exclude_local v' = false /\ _prev_caption v' = None /\
              count_forest (_children v')
              = (count_forest (_children v) + count_items c)%nat) cs ->
  forallb no_caption cs = true ->
  forall v i v', _exclude_local v = false ->
    _prev_caption v = None ->
    walk_nodes w v i cs = Ok v' ->
    _exclude_local v' = false /\ _prev_caption v' = None /\
    count_forest (_children v')
    = (count_forest (_children v)
       + fold_right (fun c m => (count_items c + m)%nat) 0%nat cs)%nat.
Proof.
  induction 1 as [|c cs Hc _ IH]; intros Q v i v' E P H; simpl in H.
  - inversion H; subst. repeat split; auto; simpl; lia.
  - simpl in Q. apply andb_true_iff in Q. destruct Q as [Qc Q].
    destruct (w v i c) as [v1|x] eqn:W; simpl in H; [|discriminate].
    destruct (Hc Qc _ _ _ E P W) as (E1 & P1 & C1).
    destruct (IH Q _ _ _ E1 P1 H) as (E2 & P2 & C2).
    repeat split; auto; rewrite C2, C1; simpl; lia.
Qed.

Lemma walk_counts n : no_caption n = true ->
  forall v parent self v',
    _exclude_local v = false ->
    _prev_caption v = None ->
    walk v parent self n = Ok v' ->
    _exclude_local v' = false /\ _prev_caption v' = None /\
    count_forest (_children v')
    = (count_forest (_children v) + count_items n)%nat.
Proof.
  induction n as [t|cs IH|u cs IH|cs IH|b cs IH|b cs IH|cs IH|cs IH|cs IH]
    using node_tree_ind; intros Q v parent self v' E P H;
    try discriminate;
    try (assert (K : forall a a', _exclude_local a = false ->
            _prev_caption a = None ->
            walk_kids self a cs = Ok a' ->
            _exclude_local a' = false /\ _prev_caption a' = None /\
            count_forest (_children a')
            = (count_forest (_children a)
               + fold_right (fun c m => (count_items c + m)%nat) 0%nat cs)%nat);
         [ intros a a'; apply walk_nodes_counts; auto;
           eapply Forall_impl; [|exact IH];
           intros c Hc Qc x i x'; now apply Hc | ]).
  - simpl in H. unfold visit_reference in H. simpl in H. rewrite E in H.
    inversion H; subst. repeat split; simpl; auto; lia.
  - rewrite walk_bullet_list_no_caption in H by assumption.
    now apply K.
  - rewrite walk_list_item_eq in H. unfold visit_list_item in H.
    rewrite E in H.
    set (fv := if b then _ else _) in H.
    destruct (walk_kids self fv cs) as [cv|x] eqn:W; simpl in H;
      [|discriminate].
    apply K in W; try (unfold fv; now destruct b).
    destruct W as (_ & _ & C).
    assert (Z : _children fv = []) by (unfold fv; now destruct b).
    rewrite Z in C. simpl in C.
    inversion H; subst. repeat split; simpl; auto.
    rewrite count_forest_app, count_forest_one. simpl. rewrite C. lia.
  - simpl in H. inversion H; subst. repeat split; auto; simpl; lia.
  - now apply K.
  - now apply K.
Qed.

(** X6.  Without [exclude_local], a tree without captions converts to a
    forest with as many entries, counted at every depth, as the tree has
    list items for a visitor to be dispatched on: no item is lost and no
    entry is made of anything else. *)
Theorem X6_one_entry_per_list_item :
  forall toc_node es,
    no_caption toc_node = true ->
    _get_mkdocs_toc toc_node false = Ok es ->
    count_forest es = count_items toc_node.
Proof.
  intros n es Q H. unfold _get_mkdocs_toc, _get_mkdocs_toc_at in H.
  destruct (walk (new_TocVisitor false) None [] n) as [v|x] eqn:W;
    simpl in H; [|discriminate].
  inversion H; subst.
  destruct (walk_counts n Q (new_TocVisitor false) None [] v
              eq_refl eq_refl W) as (_ & _ & C).
  exact C.
Qed.

Lemma X6_witness :
  count_forest
    [{| title := Some "Page"; url := Some "#top";
        children :=
          [toc_leaf "#one" "One";
           {| title := Some "Two"; url := Some "#two";
              children := [toc_leaf "#deep" "Deep"]; active := false |}];
        active := false |}]
  = count_items nested_sections_tree.
Proof.
  exact (X6_one_entry_per_list_item nested_sections_tree _ eq_refl eq_refl).
Defined.

(** ** _strip_fragment *)

Lemma str_find_lower c s : -1 <= str_find c s.
Proof.
  induction s as [|a s IH]; simpl; [lia|].
  destruct (Ascii.eqb a c); [lia|].
  destruct (str_find c s =? -1) eqn:E; lia.
Qed.

Lemma str_take_all s : str_take (String.length s) s = s.
Proof. induction s as [|a s IH]; simpl; [reflexivity|]. now rewrite IH. Qed.

(** Up to the first [c], if there is one: no [c], and then [c] follows. *)
Lemma str_find_split c s :
  str_find c s <> -1 ->
  str_find c (str_take (Z.to_nat (str_find c s)) s) = -1 /\
  exists rest,
    s = String.append (str_take (Z.to_nat (str_find c s)) s) (String c rest).
Proof.
  induction s as [|a s IH]; simpl; [congruence|].
  destruct (Ascii.eqb a c) eqn:A.
  - intros _. simpl. split; [reflexivity|].
    apply Ascii.eqb_eq in A. subst. now exists s.
  - destruct (str_find c s =? -1) eqn:E; [congruence|].
    intros _. apply Z.eqb_neq in E.
    pose proof (str_find_lower c s) as L.
    destruct (IH E) as (F & rest & R).
    replace (Z.to_nat (str_find c s + 1))
      with (S (Z.to_nat (str_find c s))) by lia.
    simpl. rewrite A, F. simpl. split; [reflexivity|].
    exists rest. now rewrite <- R.
Qed.

Lemma strip_fragment_found url :
  str_find "#" url <> -1 ->
  _strip_fragment url = str_take (Z.to_nat (str_find "#" url)) url.
Proof.
  intros H. unfold _strip_fragment, slice_to.
  pose proof (str_find_lower "#" url) as L.
  destruct (str_find "#" url =? -1) eqn:E.
  - apply Z.eqb_eq in E. congruence.
  - destruct (str_find "#" url <? 0) eqn:N; [|reflexivity].
    apply Z.ltb_lt in N. lia.
Qed.

Lemma strip_fragment_clean url :
  str_find "#" url = -1 -> _strip_fragment url = url.
Proof. intros H. unfold _strip_fragment. now rewrite H. Qed.

Lemma str_find_append c base rest :
  str_find c base = -1 ->
  str_find c (String.append base (String c rest))
  = Z.of_nat (String.length base).
Proof.
  induction base as [|a base IH]; simpl.
  - intros _. now rewrite Ascii.eqb_refl.
  - destruct (Ascii.eqb a c); [discriminate|].
    destruct (str_find c base =? -1) eqn:E.
    + intros _. apply Z.eqb_eq in E. rewrite (IH E).
      destruct (Z.of_nat (String.length base) =? -1) eqn:N; [|lia].
      apply Z.eqb_eq in N. lia.
    + pose proof (str_find_lower c base) as L. intros H. lia.
Qed.

Lemma str_take_append base rest :
  str_take (String.length base) (String.append base rest) = base.
Proof.
  induction base as [|a base IH]; simpl.
  - now destruct rest.
  - now rewrite IH.
Qed.

(** X7.  The url [_strip_fragment] returns has no ['#']; it is the given
    url up to its first ['#'], what is cut being empty or beginning with
    it; stripping twice is stripping once. *)
Theorem X7_strip_fragment_removes_the_fragment :
  forall url,
    str_find "#" (_strip_fragment url) = -1 /\
    (exists rest,
        url = String.append (_strip_fragment url) rest /\
        (rest = EmptyString \/ startswith rest "#" = true)) /\
    _strip_fragment (_strip_fragment url) = _strip_fragment url.
Proof.
  intros url.
  assert (C : str_find "#" (_strip_fragment url) = -1 /\
              exists rest,
                url = String.append (_strip_fragment url) rest /\
                (rest = EmptyString \/ startswith rest "#" = true)).
  { destruct (Z.eq_dec (str_find "#" url) (-1)) as [E|N].
    - rewrite (strip_fragment_clean _ E). split; [exact E|].
      exists EmptyString. split; [|now left].
      clear E. induction url as [|a url IH]; simpl; [reflexivity|].
      now rewrite <- IH.
    - rewrite (strip_fragment_found _ N).
      destruct (str_find_split "#" url N) as (F & rest & R).
      split; [exact F|]. exists (String "#" rest). split; [exact R|].
      now right. }
  destruct C as (F & R). repeat split; auto.
  now apply strip_fragment_clean.
Qed.

Lemma strip_with_fragment base frag :
  str_find "#" base = -1 ->
  _strip_fragment (with_fragment base frag) = base.
Proof.
  intros H. unfold with_fragment.
  pose proof (str_find_append "#" base frag H) as F.
  rewrite strip_fragment_found by (rewrite F; lia).
  rewrite F, Nat2Z.id. apply str_take_append.
Qed.

(** X8.  Attaching a fragment to a url without ['#'] and stripping it
    again gives the url back, whatever the fragment holds. *)
Theorem X8_strip_fragment_undoes_with_fragment :
  forall base frag,
    str_find "#" base = -1 ->
    _strip_fragment (with_fragment base frag) = base.
Proof. exact strip_with_fragment. Qed.

Lemma X8_witness :
  _strip_fragment (with_fragment "page2.html" "x#y") = "page2.html".
Proof.
  exact (X8_strip_fragment_undoes_with_fragment "page2.html" "x#y" eq_refl).
Defined.

(** ** _is_child_local *)

Lemma with_fragment_nonempty base frag :
  nonempty (with_fragment base frag) = true.
Proof. now destruct base. Qed.

(** X9.  [_is_child_local] answers [False] as soon as the visitor's url
    or the child's is [None] or empty; for two urls with fragments it
    answers whether what stands before the fragments is the same, so two
    fragment-only urls always count as local to each other. *)
Theorem X9_is_child_local_compares_pages :
  (forall self child,
      truthy (_url self) = false \/ truthy (url child) = false ->
      _is_child_local self child = false) /\
  (forall self child base1 frag1 base2 frag2,
      str_find "#" base1 = -1 ->
      str_find "#" base2 = -1 ->
      _url self = Some (with_fragment base1 frag1) ->
      url child = Some (with_fragment base2 frag2) ->
      _is_child_local self child = String.eqb base1 base2).
Proof.
  split.
  - intros self child [H|H]; unfold _is_child_local; rewrite H; simpl;
      [reflexivity|now rewrite orb_true_r].
  - intros self child b1 f1 b2 f2 H1 H2 U1 U2.
    unfold _is_child_local. rewrite U1, U2. simpl truthy.
    rewrite !with_fragment_nonempty. simpl.
    now rewrite !strip_with_fragment.
Qed.

Lemma X9_witness :
  _is_child_local (new_TocVisitor true) (toc_leaf "#a" "A") = false /\
  _is_child_local
    (set_reference (Some "Top") (Some (with_fragment "" "top"))
       (new_TocVisitor false))
    (toc_leaf (with_fragment "" "a") "A")
  = String.eqb "" "".
Proof.
  split.
  - exact (proj1 X9_is_child_local_compares_pages
             (new_TocVisitor true) (toc_leaf "#a" "A") (or_introl eq_refl)).
  - exact (proj2 X9_is_child_local_compares_pages
             (set_reference (Some "Top") (Some (with_fragment "" "top"))
                (new_TocVisitor false))
             (toc_leaf (with_fragment "" "a") "A")
             "" "top" "" "a" eq_refl eq_refl eq_refl eq_refl).
Defined.

(** ** The hooks, one after the other *)

(** What one call of [add_html_link] does to the application, whether it
    raises or not. *)
Lemma add_html_link_effect app pagename :
  let app' := fst (Hooks.add_html_link app pagename) in
  let o := Hooks.html_theme_options app in
  Hooks.html_theme_options app' = o /\
  Hooks.link_suffix app' = Hooks.link_suffix app /\
  Hooks.outdir app' = Hooks.outdir app /\
  Hooks.sitemap_links app'
  = Hooks.sitemap_links app
    ++ (if nonempty (Hooks.site_url o)
        then [page_link (Hooks.site_url o) (Hooks.link_suffix app) pagename]
        else []) /\
  Hooks.site_pages app'
  = Hooks.site_pages app
    ++ (if xorb (Hooks.html_minify o) (Hooks.html_prettify o)
        then [page_file (Hooks.outdir app) pagename]
        else []).
Proof.
  unfold Hooks.add_html_link, page_link, page_file.
  destruct app as [[u m p] suffix dir links pages]. simpl.
  destruct (nonempty u); simpl;
    destruct (endswith u "/"), m, p; simpl;
    repeat split; auto; now rewrite app_nil_r.
Qed.

Lemma add_html_links_effect pagenames : forall app,
  let app' := Hooks.add_html_links app pagenames in
  let o := Hooks.html_theme_options app in
  Hooks.html_theme_options app' = o /\
  Hooks.link_suffix app' = Hooks.link_suffix app /\
  Hooks.outdir app' = Hooks.outdir app /\
  Hooks.sitemap_links app'
  = Hooks.sitemap_links app
    ++ (if nonempty (Hooks.site_url o)
        then map (page_link (Hooks.site_url o) (Hooks.link_suffix app))
                 pagenames
        else []) /\
  Hooks.site_pages app'
  = Hooks.site_pages app
    ++ (if xorb (Hooks.html_minify o) (Hooks.html_prettify o)
        then map (page_file (Hooks.outdir app)) pagenames
        else []).
Proof.
  unfold Hooks.add_html_links.
  induction pagenames as [|p ps IH]; intros app; simpl.
  - repeat split; auto;
      [destruct (nonempty _)|destruct (xorb _ _)]; now rewrite app_nil_r.
  - destruct (add_html_link_effect app p) as (O & S & D & L & P).
    destruct (IH (fst (Hooks.add_html_link app p))) as (O' & S' & D' & L' & P').
    simpl in *. rewrite O, S, D in *.
    repeat split; auto.
    + rewrite L', L.
      destruct (nonempty _); simpl; now rewrite <- app_assoc.
    + rewrite P', P.
      destruct (xorb _ _); simpl; now rewrite <- app_assoc.
Qed.

(** X10.  After [setup], whatever pages the hook is called for, with a
    site url configured and no exception [create_sitemap] writes
    [sitemap.xml] in the output directory, its root a [urlset] with one
    [url]/[loc] per page, in the order of the calls, and leaves the list
    of links empty; the link of a page is the same whether or not the
    site url was given with its final ['/']. *)
Theorem X10_sitemap_lists_every_page_once :
  forall options suffix dir pagenames,
    nonempty (Hooks.site_url options) = true ->
    pagenames <> [] ->
    create_sitemap
      (Hooks.add_html_links (Hooks.setup options suffix dir) pagenames) None
    = (clear_sitemap_links
         (Hooks.add_html_links (Hooks.setup options suffix dir) pagenames),
       Some (String.append dir "/sitemap.xml",
             mkElement "urlset"
               [("xmlns", "http://www.sitemaps.org/schemas/sitemap/0.9")]
               None
               (map (fun p =>
                       url_element
                         (page_link (Hooks.site_url options) suffix p))
                    pagenames))) /\
    (forall p,
        endswith (Hooks.site_url options) "/" = false ->
        page_link (String.append (Hooks.site_url options) "/") suffix p
        = page_link (Hooks.site_url options) suffix p).
Proof.
  intros options suffix dir pagenames U N. split.
  - destruct (add_html_links_effect pagenames
                (Hooks.setup options suffix dir)) as (O & S & D & L & _).
    simpl in O, S, D, L. rewrite U in L.
    unfold create_sitemap. rewrite O, D, L, U. simpl.
    destruct pagenames as [|p ps]; [congruence|]. simpl.
    now rewrite map_map.
  - intros p E. unfold page_link. rewrite E.
    assert (T : forall s, endswith (String.append s "/") "/" = true).
    { induction s as [|a s IH]; [reflexivity|].
      simpl. destruct (String.append s "/") eqn:A; [|exact IH].
      destruct s; discriminate. }
    now rewrite T.
Qed.

Lemma X10_witness :
  create_sitemap
    (Hooks.add_html_links
       (Hooks.setup conflicting_options ".html" "_build")
       ["index"; "api/usage"]) None
  = (clear_sitemap_links
       (Hooks.add_html_links
          (Hooks.setup conflicting_options ".html" "_build")
          ["index"; "api/usage"]),
     Some (String.append "_build" "/sitemap.xml",
           mkElement "urlset"
             [("xmlns", "http://www.sitemaps.org/schemas/sitemap/0.9")]
             None
             (map (fun p =>
                     url_element
                       (page_link (Hooks.site_url conflicting_options)
                          ".html" p))
                  ["index"; "api/usage"]))) /\
  (forall p,
      endswith (Hooks.site_url conflicting_options) "/" = false ->
      page_link (String.append (Hooks.site_url conflicting_options) "/")
        ".html" p
      = page_link (Hooks.site_url conflicting_options) ".html" p).
Proof.
  apply (X10_sitemap_lists_every_page_once
           conflicting_options ".html" "_build" ["index"; "api/usage"]).
  - reflexivity.
  - discriminate.
Defined.

(** X11.  [create_sitemap] writes at most once: called again after a call
    without exception, it writes nothing and leaves the application as it
    is, whatever exception it is then told of. *)
Theorem X11_sitemap_is_written_once :
  forall app exception,
    create_sitemap (fst (create_sitemap app None)) exception
    = (fst (create_sitemap app None), None).
Proof.
  intros app e. unfold create_sitemap at 2 3. simpl.
  destruct (nonempty (Hooks.site_url (Hooks.html_theme_options app))) eqn:U;
    simpl.
  - destruct (Hooks.sitemap_links app) as [|l ls] eqn:L; simpl.
    + unfold create_sitemap. now rewrite U, L, orb_true_r.
    + unfold create_sitemap. simpl. now rewrite orb_true_r.
  - unfold create_sitemap. now rewrite U.
Qed.

(** The loop of [reformat_pages] when it minifies: through, if every
    file is there; up to the first missing file otherwise. *)
Lemma reformat_loop_all is_file pages :
  forallb is_file pages = true ->
  Hooks.reformat_loop is_file true pages = (pages, Ok tt).
Proof.
  induction pages as [|p ps IH]; intros F; [reflexivity|].
  simpl in F. apply andb_true_iff in F. destruct F as [Fp F].
  simpl. now rewrite Fp, (IH F).
Qed.

Lemma reformat_loop_missing is_file before p after :
  forallb is_file before = true ->
  is_file p = false ->
  Hooks.reformat_loop is_file true (before ++ p :: after)
  = (before, Raise FileNotFoundError).
Proof.
  induction before as [|b bs IH]; intros F M.
  - simpl. now rewrite M.
  - simpl in F. apply andb_true_iff in F. destruct F as [Fb F].
    simpl. now rewrite Fb, (IH F M).
Qed.

(** X12.  With [html_minify] alone, [reformat_pages] after the hook calls
    goes through the files of the pages in the order of the calls.  If
    each page has its file at [os.path.join(outdir, pagename + '.html')],
    every file is rewritten and the list is emptied, so that a second
    call rewrites nothing.  If one of the files is not there, the call
    raises [FileNotFoundError] at the first such page: the files before
    it are rewritten, no other, and the list is kept. *)
Theorem X12_minify_rewrites_every_page_once :
  forall is_file options suffix dir,
    Hooks.html_minify options = true ->
    Hooks.html_prettify options = false ->
    (forall pagenames,
        forallb is_file (map (page_file dir) pagenames) = true ->
        let app := Hooks.add_html_links (Hooks.setup options suffix dir)
                     pagenames in
        Hooks.reformat_pages is_file app None
        = (Hooks.clear_site_pages app, map (page_file dir) pagenames,
           Ok tt) /\
        Hooks.reformat_pages is_file (Hooks.clear_site_pages app) None
        = (Hooks.clear_site_pages app, [], Ok tt)) /\
    (forall before pagename after,
        forallb is_file (map (page_file dir) before) = true ->
        is_file (page_file dir pagename) = false ->
        let app := Hooks.add_html_links (Hooks.setup options suffix dir)
                     (before ++ pagename :: after) in
        Hooks.reformat_pages is_file app None
        = (app, map (page_file dir) before, Raise FileNotFoundError)).
Proof.
  intros is_file options suffix dir M P. split.
  - intros pagenames F app.
    destruct (add_html_links_effect pagenames
                (Hooks.setup options suffix dir)) as (O & _ & _ & _ & Pg).
    fold app in O, Pg. simpl in O, Pg. rewrite M, P in Pg. simpl in Pg.
    split; [|reflexivity].
    unfold Hooks.reformat_pages. rewrite Pg, O, M.
    rewrite (reformat_loop_all _ _ F).
    destruct pagenames as [|p ps]; reflexivity.
  - intros before pagename after F N app.
    destruct (add_html_links_effect (before ++ pagename :: after)
                (Hooks.setup options suffix dir)) as (O & _ & _ & _ & Pg).
    fold app in O, Pg. simpl in O, Pg. rewrite M, P in Pg. simpl in Pg.
    unfold Hooks.reformat_pages. rewrite Pg, O, M.
    rewrite map_app. simpl map.
    rewrite (reformat_loop_missing _ _ _ _ F N).
    destruct before; reflexivity.
Qed.

Lemma X12_witness :
  (let app := Hooks.add_html_links
                (Hooks.setup minify_options ".html" "_build")
                ["index"; "api/usage"] in
   Hooks.reformat_pages (fun _ => true) app None
   = (Hooks.clear_site_pages app,
      map (page_file "_build") ["index"; "api/usage"], Ok tt) /\
   Hooks.reformat_pages (fun _ => true) (Hooks.clear_site_pages app) None
   = (Hooks.clear_site_pages app, [], Ok tt)) /\
  (let app := Hooks.add_html_links
                (Hooks.setup minify_options ".html" "_build")
                ["index"; "api/usage"] in
   Hooks.reformat_pages (String.eqb "_build/index.html") app None
   = (app, map (page_file "_build") ["index"], Raise FileNotFoundError)).
Proof.
  split.
  - exact (proj1 (X12_minify_rewrites_every_page_once
                    (fun _ => true) minify_options ".html" "_build"
                    eq_refl eq_refl)
             ["index"; "api/usage"] eq_refl).
  - exact (proj2 (X12_minify_rewrites_every_page_once
                    (String.eqb "_build/index.html") minify_options
                    ".html" "_build" eq_refl eq_refl)
             ["index"] "api/usage" [] eq_refl eq_refl).
Defined.

(** X13.  With [html_prettify] alone and at least one page built,
    [reformat_pages] raises at the first page: [NameError] if the page's
    file is there, since the module never binds [BeautifulSoup], and
    [FileNotFoundError] if it is not.  Either way no file is rewritten
    and the list of pages is left as it was. *)
Theorem X13_prettify_raises_name_error :
  forall is_file options suffix dir pagenames,
    Hooks.html_minify options = false ->
    Hooks.html_prettify options = true ->
    pagenames <> [] ->
    let app := Hooks.add_html_links (Hooks.setup options suffix dir)
                 pagenames in
    Hooks.reformat_pages is_file app None
    = (app, [],
       Raise (if is_file (page_file dir (hd EmptyString pagenames))
              then NameError else FileNotFoundError)) /\
    Hooks.site_pages app = map (page_file dir) pagenames.
Proof.
  intros is_file options suffix dir pagenames M P N app.
  destruct (add_html_links_effect pagenames
              (Hooks.setup options suffix dir)) as (O & _ & _ & _ & Pg).
  fold app in O, Pg. simpl in O, Pg. rewrite M, P in Pg. simpl in Pg.
  split; [|exact Pg].
  unfold Hooks.reformat_pages. rewrite Pg, O, M.
  destruct pagenames as [|p ps]; [congruence|].
  simpl. now destruct (is_file (page_file dir p)).
Qed.

Lemma X13_witness :
  let app := Hooks.add_html_links
               (Hooks.setup prettify_options ".html" "_build") ["index"] in
  Hooks.reformat_pages (fun _ => true) app None
  = (app, [], Raise NameError) /\
  Hooks.site_pages app = map (page_file "_build") ["index"].
Proof.
  apply (X13_prettify_raises_name_error
           (fun _ => true) prettify_options ".html" "_build" ["index"]);
    [reflexivity|reflexivity|discriminate].
Defined.

(** ** split and join *)

Lemma str_split_nonempty c s : str_split c s <> [].
Proof.
  destruct s as [|a s]; simpl; [discriminate|].
  destruct (Ascii.eqb a c); [discriminate|].
  destruct (str_split c s); discriminate.
Qed.

Lemma join_cons sep x y ys :
  join sep (x :: y :: ys)
  = String.append x (String.append sep (join sep (y :: ys))).
Proof. reflexivity. Qed.

(** Joining what [split] gave returns the string. *)
Lemma join_split c s : join (String c EmptyString) (str_split c s) = s.
Proof.
  induction s as [|a s IH]; [reflexivity|]. cbn [str_split].
  pose proof (str_split_nonempty c s) as N.
  destruct (str_split c s) as [|h t]; [congruence|].
  destruct (Ascii.eqb a c) eqn:A.
  - apply Ascii.eqb_eq in A. subst a.
    rewrite join_cons, IH. reflexivity.
  - destruct t as [|h' t].
    + unfold join in *. simpl in *. now rewrite IH.
    + rewrite join_cons in *.
      change (String.append (String a h) ?x)
        with (String a (String.append h x)).
      now rewrite IH.
Qed.

Lemma append_assoc (a b c : string) :
  String.append (String.append a b) c = String.append a (String.append b c).
Proof. induction a as [|x a IH]; simpl; [reflexivity|]. now rewrite IH. Qed.

Lemma join_snoc sep l x :
  l <> [] ->
  join sep (l ++ [x]) = String.append (join sep l) (String.append sep x).
Proof.
  induction l as [|a l IH]; [congruence|]. intros _.
  destruct l as [|b l].
  - reflexivity.
  - change ((a :: b :: l) ++ [x]) with (a :: (b :: l) ++ [x]).
    change ((b :: l) ++ [x]) with (b :: l ++ [x]) at 1.
    rewrite join_cons.
    change (b :: l ++ [x]) with ((b :: l) ++ [x]).
    rewrite IH by discriminate.
    rewrite join_cons. now rewrite !append_assoc.
Qed.

(** X14.  The table style the translator sets is the configured one with
    [,data] appended, unchanged up to there: every style named before is
    kept, also an empty one, so that the default [''] becomes [',data']. *)
Theorem X14_table_style_gets_data_appended :
  forall table_style,
    table_style_with_data table_style = String.append table_style ",data".
Proof.
  intros s. unfold table_style_with_data.
  rewrite join_snoc by apply str_split_nonempty.
  now rewrite join_split.
Qed.

(** ** base_url *)

Lemma str_split_clean c s :
  str_count c s = 0%nat -> str_split c s = [s].
Proof.
  induction s as [|a s IH]; simpl; [reflexivity|].
  destruct (Ascii.eqb a c); [discriminate|].
  intros H. now rewrite (IH H).
Qed.

Lemma str_split_append c a b :
  str_count c a = 0%nat ->
  str_split c (String.append a (String c b)) = a :: str_split c b.
Proof.
  induction a as [|x a IH]; simpl.
  - intros _. now rewrite Ascii.eqb_refl.
  - destruct (Ascii.eqb x c); [discriminate|].
    intros H. now rewrite (IH H).
Qed.

Lemma split_join_dots n :
  str_split "/" (join "/" (repeat ".." (S n))) = repeat ".." (S n).
Proof.
  induction n as [|n IH]; [reflexivity|].
  change (repeat ".." (S (S n))) with (".." :: repeat ".." (S n)).
  change (repeat ".." (S n)) with (".." :: repeat ".." n) at 1.
  rewrite join_cons.
  change (".." :: repeat ".." n) with (repeat ".." (S n)).
  change (String.append "/" (join "/" (repeat ".." (S n))))
    with (String "/" (join "/" (repeat ".." (S n)))).
  rewrite str_split_append by reflexivity.
  now rewrite IH.
Qed.

(** X15.  For a page [n] directories deep ([n] slashes in its name, one
    at least) [base_url] is made of exactly [n] segments [..], so that it
    leads from the page's directory to the top; it is ['.'] exactly for a
    page at the top. *)
Theorem X15_base_url_climbs_to_the_top :
  forall pagename,
    (str_count "/" pagename = 0%nat <-> base_url pagename = ".") /\
    (str_count "/" pagename <> 0%nat ->
     str_split "/" (base_url pagename)
     = repeat ".." (str_count "/" pagename)).
Proof.
  intros p. unfold base_url.
  destruct (str_count "/" p) as [|n] eqn:C; simpl Nat.eqb; cbv iota.
  - split; [now split|congruence].
  - split.
    + split; [discriminate|]. intros H. exfalso.
      assert (S : str_split "/" (join "/" (repeat ".." (S n))) = ["."])
        by now rewrite H.
      rewrite split_join_dots in S. discriminate.
    + intros _. apply split_join_dots.
Qed.

Lemma X15_witness :
  str_split "/" (base_url "api/core/usage")
  = repeat ".." (str_count "/" "api/core/usage").
Proof.
  apply (proj2 (X15_base_url_climbs_to_the_top "api/core/usage")).
  discriminate.
Defined.

(** ** dict_merge returns *)

Lemma value_depth_dict d : value_depth (PyDict d) = S (dict_depth d).
Proof. reflexivity. Qed.

Lemma dict_depth_cons k v d :
  dict_depth ((k, v) :: d) = Nat.max (value_depth v) (dict_depth d).
Proof. reflexivity. Qed.

Lemma dicts_depth_cons d ds :
  dicts_depth (d :: ds) = Nat.max (dict_depth d) (dicts_depth ds).
Proof. reflexivity. Qed.

Lemma dict_get_depth k d v :
  dict_get k d = Some v -> (value_depth v <= dict_depth d)%nat.
Proof.
  induction d as [|[k' v'] d IH]; [discriminate|].
  rewrite dict_depth_cons. cbn [dict_get].
  destruct (String.eqb k k').
  - intros H. inversion H; subst. lia.
  - intros H. specialize (IH H). lia.
Qed.

Lemma dict_set_depth k v d D :
  (dict_depth d <= D)%nat -> (value_depth v <= D)%nat ->
  (dict_depth (dict_set k v d) <= D)%nat.
Proof.
  induction d as [|[k' v'] d IH]; intros Hd Hv.
  - cbn [dict_set]. rewrite dict_depth_cons.
    change (dict_depth []) with 0%nat. lia.
  - rewrite dict_depth_cons in Hd. cbn [dict_set].
    destruct (String.eqb k k'); rewrite dict_depth_cons.
    + lia.
    + assert (H : (dict_depth d <= D)%nat) by lia.
      specialize (IH H Hv). lia.
Qed.

Lemma merge_item_returns D merge res kv :
  returns_below D merge ->
  (dict_depth res <= D)%nat -> (value_depth (snd kv) <= D)%nat ->
  exists r, merge_item merge (Some res) kv = Some r /\
            (dict_depth r <= D)%nat.
Proof.
  intros R Hr Hv. destruct kv as [k v]. unfold merge_item. simpl in *.
  destruct v as [| | | | l|dv];
    try (eexists; split; [reflexivity|]; now apply dict_set_depth).
  destruct (dict_get k res) as [[| | | | l|dr]|] eqn:G;
    try (eexists; split; [reflexivity|]; now apply dict_set_depth).
  apply dict_get_depth in G. rewrite value_depth_dict in *.
  destruct (R dr dv) as (m & M & Hm); try lia.
  rewrite M. eexists; split; [reflexivity|].
  apply dict_set_depth; auto.
Qed.

Lemma merge_item_agrees D m1 m2 res kv :
  agree_below D m1 m2 ->
  (dict_depth res <= D)%nat -> (value_depth (snd kv) <= D)%nat ->
  merge_item m1 (Some res) kv = merge_item m2 (Some res) kv.
Proof.
  intros A Hr Hv. destruct kv as [k v]. unfold merge_item. simpl in *.
  destruct v as [| | | | l|dv]; try reflexivity.
  destruct (dict_get k res) as [[| | | | l|dr]|] eqn:G; try reflexivity.
  apply dict_get_depth in G. rewrite value_depth_dict in *.
  rewrite (A dr dv) by lia. reflexivity.
Qed.

Lemma merge_dict_returns D m1 m2 d :
  returns_below D m1 -> agree_below D m1 m2 ->
  (dict_depth d <= D)%nat ->
  forall res, (dict_depth res <= D)%nat ->
    exists r, merge_dict m1 (Some res) d = Some r /\
              merge_dict m2 (Some res) d = Some r /\
              (dict_depth r <= D)%nat.
Proof.
  intros R A. unfold merge_dict.
  induction d as [|kv d IH]; intros Hd res Hr; cbn [fold_left].
  - now exists res.
  - destruct kv as [k v]. rewrite dict_depth_cons in Hd.
    assert (Hv : (value_depth (snd (k, v)) <= D)%nat) by (simpl; lia).
    assert (Hd' : (dict_depth d <= D)%nat) by lia.
    destruct (merge_item_returns D m1 res (k, v) R Hr Hv) as (r1 & E1 & H1).
    rewrite <- (merge_item_agrees D m1 m2 res (k, v) A Hr Hv), E1.
    now apply IH.
Qed.

Lemma merge_dicts_returns D m1 m2 ds :
  returns_below D m1 -> agree_below D m1 m2 ->
  (dicts_depth ds <= D)%nat ->
  forall res, (dict_depth res <= D)%nat ->
    exists r, merge_dicts m1 (Some res) ds = Some r /\
              merge_dicts m2 (Some res) ds = Some r /\
              (dict_depth r <= D)%nat.
Proof.
  intros R A. unfold merge_dicts.
  induction ds as [|d ds IH]; intros Hd res Hr; cbn [fold_left].
  - now exists res.
  - rewrite dicts_depth_cons in Hd.
    assert (H1 : (dict_depth d <= D)%nat) by lia.
    assert (H2 : (dicts_depth ds <= D)%nat) by lia.
    destruct (merge_dict_returns D m1 m2 d R A H1 res Hr)
      as (r1 & E1 & E2 & Hr1).
    rewrite E1, E2. now apply IH.
Qed.

Lemma agree_below_refl D m : agree_below D m m.
Proof. now intros dr dv _ _. Qed.

Lemma pair_depth dr dv D :
  (S (dict_depth dr) <= D)%nat -> (S (dict_depth dv) <= D)%nat ->
  (dicts_depth [dr; dv] < D)%nat.
Proof.
  rewrite !dicts_depth_cons. change (dicts_depth []) with 0%nat. lia.
Qed.

(** Enough depth gives a result, the same for any greater depth, nested
    no deeper than the arguments. *)
Lemma dict_merge_within_stable n : forall ds,
  (dicts_depth ds < n)%nat ->
  exists r,
    (dict_depth r <= dicts_depth ds)%nat /\
    forall m, (n <= m)%nat -> dict_merge_within m ds = Some r.
Proof.
  induction n as [|n IH]; intros ds Hn; [lia|].
  set (D := dicts_depth ds) in *.
  set (m0 := fun dr dv => dict_merge_within n [dr; dv]).
  assert (R : returns_below D m0).
  { intros dr dv Hr Hv.
    pose proof (pair_depth dr dv D Hr Hv) as P.
    destruct (IH [dr; dv]) as (r & Hd & St); [lia|].
    exists r. split; [apply St; lia|lia]. }
  destruct (merge_dicts_returns D m0 m0 ds R (agree_below_refl D m0)
              (Nat.le_refl D) [] (Nat.le_0_l D)) as (r & E & _ & Hr).
  exists r. split; [exact Hr|].
  intros m Hm. destruct m as [|m]; [lia|]. cbn [dict_merge_within].
  assert (A : agree_below D m0
                (fun dr dv => dict_merge_within m [dr; dv])).
  { intros dr dv Hdr Hdv.
    pose proof (pair_depth dr dv D Hdr Hdv) as P.
    destruct (IH [dr; dv]) as (r' & _ & St); [lia|].
    unfold m0. rewrite (St n), (St m); auto; lia. }
  destruct (merge_dicts_returns D m0 _ ds R A
              (Nat.le_refl D) [] (Nat.le_0_l D)) as (r' & E1 & E2 & _).
  pose proof (eq_trans (eq_sym E1) E) as Er. injection Er as ->. exact E2.
Qed.

Lemma dict_merge_within_enough n ds :
  (dicts_depth ds < n)%nat ->
  dict_merge_within n ds = Some (dict_merge ds).
Proof.
  intros H.
  destruct (dict_merge_within_stable (S (dicts_depth ds)) ds
              (Nat.lt_succ_diag_r _)) as (r & _ & St).
  unfold dict_merge. rewrite (St (S (dicts_depth ds))) by lia.
  apply St. lia.
Qed.

Lemma dict_merge_depth ds :
  (dict_depth (dict_merge ds) <= dicts_depth ds)%nat.
Proof.
  destruct (dict_merge_within_stable (S (dicts_depth ds)) ds (Nat.lt_succ_diag_r _))
    as (r & Hr & St).
  unfold dict_merge. now rewrite (St _ (Nat.le_refl _)).
Qed.

(** The loops of [dict_merge], the nested call replaced by its result. *)
Lemma dict_merge_loops ds :
  merge_dicts merge_pair (Some []) ds = Some (dict_merge ds).
Proof.
  set (D := dicts_depth ds).
  set (m0 := fun dr dv => dict_merge_within D [dr; dv]).
  assert (R : returns_below D m0).
  { intros dr dv Hr Hv.
    pose proof (pair_depth dr dv D Hr Hv) as P.
    exists (dict_merge [dr; dv]). split.
    - now apply dict_merge_within_enough.
    - pose proof (dict_merge_depth [dr; dv]). lia. }
  assert (A : agree_below D m0 merge_pair).
  { intros dr dv Hr Hv. unfold m0, merge_pair.
    apply dict_merge_within_enough. now apply pair_depth. }
  destruct (merge_dicts_returns D m0 merge_pair ds R A
              (Nat.le_refl D) [] (Nat.le_0_l D)) as (r & E1 & E2 & _).
  pose proof (dict_merge_within_enough (S D) ds (Nat.lt_succ_diag_r _)) as W.
  cbn [dict_merge_within] in W.
  change (merge_dicts m0 (Some []) ds = Some (dict_merge ds)) in W.
  pose proof (eq_trans (eq_sym E1) W) as Er. injection Er as ->. exact E2.
Qed.

(** X16.  [dict_merge] returns for every list of dicts: its nested calls
    never go deeper than dicts are nested in its arguments, any greater
    bound on them gives the same result, and the result is nested no
    deeper than the arguments. *)
Theorem X16_dict_merge_returns :
  forall dicts depth,
    (dicts_depth dicts < depth)%nat ->
    dict_merge_within depth dicts = Some (dict_merge dicts) /\
    (dict_depth (dict_merge dicts) <= dicts_depth dicts)%nat.
Proof.
  intros ds n H. split.
  - now apply dict_merge_within_enough.
  - apply dict_merge_depth.
Qed.

Lemma X16_witness :
  dict_merge_within 5 [DEFAULT_THEME_OPTIONS; user_theme_options]
  = Some (dict_merge [DEFAULT_THEME_OPTIONS; user_theme_options]) /\
  (dict_depth (dict_merge [DEFAULT_THEME_OPTIONS; user_theme_options])
   <= dicts_depth [DEFAULT_THEME_OPTIONS; user_theme_options])%nat.
Proof.
  apply (X16_dict_merge_returns
           [DEFAULT_THEME_OPTIONS; user_theme_options] 5%nat).
  vm_compute. lia.
Defined.

(** ** What dict_merge returns *)

Lemma merge_item_pair res k v :
  merge_item merge_pair (Some res) (k, v)
  = Some (dict_set k (merged_value res k v) res).
Proof.
  unfold merge_item, merged_value, merge_pair. simpl.
  destruct v as [| | | | l|dv]; try reflexivity.
  destruct (dict_get k res) as [[| | | | l|dr]|]; reflexivity.
Qed.

Lemma merge_dict_pair d : forall res,
  merge_dict merge_pair (Some res) d = Some (merge_into res d).
Proof.
  unfold merge_dict, merge_into.
  induction d as [|[k v] d IH]; intros res; [reflexivity|].
  cbn [fold_left]. rewrite merge_item_pair. apply IH.
Qed.

Lemma merge_dicts_pair ds : forall res,
  merge_dicts merge_pair (Some res) ds
  = Some (fold_left merge_into ds res).
Proof.
  unfold merge_dicts.
  induction ds as [|d ds IH]; intros res; [reflexivity|].
  cbn [fold_left]. rewrite merge_dict_pair. apply IH.
Qed.

Lemma dict_merge_fold ds : dict_merge ds = fold_left merge_into ds [].
Proof.
  pose proof (dict_merge_loops ds) as H.
  rewrite merge_dicts_pair in H. now inversion H.
Qed.

Lemma dict_get_set k k' v d :
  dict_get k (dict_set k' v d)
  = if String.eqb k k' then Some v else dict_get k d.
Proof.
  induction d as [|[k2 v2] d IH]; cbn [dict_set dict_get].
  - reflexivity.
  - destruct (String.eqb_spec k' k2) as [->|N2]; cbn [dict_get].
    + destruct (String.eqb_spec k k2); reflexivity.
    + destruct (String.eqb_spec k k2) as [->|N].
      * destruct (String.eqb_spec k2 k'); [congruence|reflexivity].
      * exact IH.
Qed.

Lemma dict_get_none k d : dict_get k d = None <-> ~ In k (keys d).
Proof.
  induction d as [|[k' v] d IH]; cbn [dict_get keys map fst In].
  - tauto.
  - destruct (String.eqb_spec k k') as [->|N].
    + split; [discriminate|tauto].
    + rewrite IH. intuition congruence.
Qed.

Lemma keys_dict_set k v d :
  keys (dict_set k v d)
  = match dict_get k d with
    | Some _ => keys d
    | None => keys d ++ [k]
    end.
Proof.
  induction d as [|[k' v'] d IH]; cbn [dict_set dict_get]; [reflexivity|].
  destruct (String.eqb_spec k k') as [->|N]; [reflexivity|].
  unfold keys in *. cbn [map fst]. rewrite IH.
  now destruct (dict_get k d).
Qed.

Lemma dict_set_fresh k v d :
  ~ In k (keys d) -> dict_set k v d = d ++ [(k, v)].
Proof.
  induction d as [|[k' v'] d IH]; cbn [dict_set keys map fst In];
    [reflexivity|].
  intros H. destruct (String.eqb_spec k k') as [->|N]; [tauto|].
  simpl. rewrite IH; [reflexivity|tauto].
Qed.

Lemma keys_dict_set_facts k v d :
  (NoDup (keys d) -> NoDup (keys (dict_set k v d))) /\
  (forall x, In x (keys (dict_set k v d)) <-> x = k \/ In x (keys d)) /\
  exists rest, keys (dict_set k v d) = keys d ++ rest.
Proof.
  rewrite keys_dict_set.
  destruct (dict_get k d) eqn:G.
  - assert (I : In k (keys d)).
    { destruct (in_dec string_dec k (keys d)) as [I|I]; [exact I|].
      apply dict_get_none in I. congruence. }
    split; [auto|split].
    + intros x. split; [auto|]. intros [->|H]; auto.
    + exists []. now rewrite app_nil_r.
  - apply dict_get_none in G. split; [|split].
    + intros N. apply NoDup_app; auto.
      * repeat constructor. simpl. tauto.
      * intros x Hx [->|[]]. contradiction.
    + intros x. rewrite in_app_iff. simpl. intuition congruence.
    + now exists [k].
Qed.

Lemma merge_into_keys d : forall res,
  (NoDup (keys res) -> NoDup (keys (merge_into res d))) /\
  (forall x, In x (keys (merge_into res d))
             <-> In x (keys res) \/ In x (keys d)) /\
  exists rest, keys (merge_into res d) = keys res ++ rest.
Proof.
  unfold merge_into.
  induction d as [|[k v] d IH]; intros res; cbn [fold_left].
  - split; [auto|split].
    + intros x. simpl. tauto.
    + exists []. now rewrite app_nil_r.
  - destruct (keys_dict_set_facts k (merged_value res k v) res)
      as (N1 & I1 & r1 & P1).
    destruct (IH (dict_set k (merged_value res k v) res))
      as (N2 & I2 & r2 & P2).
    cbn [fst snd]. split; [auto|split].
    + intros x. rewrite I2, I1. cbn [keys map fst In]. intuition.
    + exists (r1 ++ r2). rewrite P2, P1. now rewrite app_assoc.
Qed.

Lemma fold_merge_into_keys ds : forall res,
  (NoDup (keys res) -> NoDup (keys (fold_left merge_into ds res))) /\
  (forall x, In x (keys (fold_left merge_into ds res))
             <-> In x (keys res) \/ exists d, In d ds /\ In x (keys d)) /\
  exists rest, keys (fold_left merge_into ds res) = keys res ++ rest.
Proof.
  induction ds as [|d ds IH]; intros res; cbn [fold_left].
  - split; [auto|split].
    + intros x. split; [auto|]. intros [H|(d & [] & _)]. exact H.
    + exists []. now rewrite app_nil_r.
  - destruct (merge_into_keys d res) as (N1 & I1 & r1 & P1).
    destruct (IH (merge_into res d)) as (N2 & I2 & r2 & P2).
    split; [auto|split].
    + intros x. rewrite I2, I1. split.
      * intros [[H|H]|(d' & Hd & Hx)]; [now left| |].
        -- right. exists d. split; [now left|exact H].
        -- right. exists d'. split; [now right|exact Hx].
      * intros [H|(d' & [->|Hd] & Hx)]; [now left; left|now left; right|].
        right. now exists d'.
    + exists (r1 ++ r2). rewrite P2, P1. now rewrite app_assoc.
Qed.

Lemma merged_value_ext r1 r2 k v :
  dict_get k r1 = dict_get k r2 -> merged_value r1 k v = merged_value r2 k v.
Proof. intros H. unfold merged_value. now rewrite H. Qed.

(** What the inner loop leaves under a key, for a dict given with each
    key once. *)
Lemma merge_into_get k d : forall res,
  NoDup (keys d) ->
  dict_get k (merge_into res d)
  = match dict_get k d with
    | None => dict_get k res
    | Some v => Some (merged_value res k v)
    end.
Proof.
  unfold merge_into.
  induction d as [|[k1 v1] d IH]; intros res N; cbn [fold_left];
    [reflexivity|].
  cbn [keys map fst] in N. inversion N as [|x l Hn Nd]; subst.
  cbn [fst snd]. rewrite (IH _ Nd). cbn [dict_get].
  destruct (String.eqb_spec k k1) as [->|Nk].
  - apply dict_get_none in Hn. rewrite Hn.
    rewrite dict_get_set. now rewrite String.eqb_refl.
  - assert (G : dict_get k (dict_set k1 (merged_value res k1 v1) res)
                = dict_get k res).
    { rewrite dict_get_set.
      destruct (String.eqb_spec k k1); [congruence|reflexivity]. }
    destruct (dict_get k d) as [v|]; [|exact G].
    f_equal. now apply merged_value_ext.
Qed.

(** Copying a dict, each key once, into a result that has none of its
    keys appends it. *)
Lemma merge_into_fresh d : forall res,
  NoDup (keys d) ->
  (forall x, In x (keys d) -> ~ In x (keys res)) ->
  merge_into res d = res ++ d.
Proof.
  unfold merge_into.
  induction d as [|[k v] d IH]; intros res N F; cbn [fold_left].
  - now rewrite app_nil_r.
  - cbn [keys map fst] in N. inversion N as [|x l Hn Nd]; subst.
    cbn [fst snd].
    assert (Fk : ~ In k (keys res)) by (apply F; now left).
    assert (G : dict_get k res = None) by now apply dict_get_none.
    assert (M : merged_value res k v = v).
    { unfold merged_value. rewrite G. now destruct v. }
    rewrite M, (dict_set_fresh _ _ _ Fk), IH; auto.
    + now rewrite <- app_assoc.
    + intros x Hx. unfold keys. rewrite map_app, in_app_iff.
      cbn [map fst In]. intros [H|[->|[]]].
      * apply (F x); [now right|exact H].
      * contradiction.
Qed.

(** X17.  In the dict [dict_merge] returns every key stands once, and its
    keys are those of the arguments: no key is lost and none is made up;
    the keys of the first argument come first, in their order. *)
Theorem X17_dict_merge_keys :
  forall dicts,
    NoDup (keys (dict_merge dicts)) /\
    (forall k,
        In k (keys (dict_merge dicts))
        <-> exists d, In d dicts /\ In k (keys d)) /\
    (forall first rest,
        dicts = first :: rest ->
        NoDup (keys first) ->
        exists more, keys (dict_merge dicts) = keys first ++ more).
Proof.
  intros ds. rewrite dict_merge_fold.
  destruct (fold_merge_into_keys ds []) as (N & I & _).
  split; [|split].
  - apply N. constructor.
  - intros k. rewrite I. split; [intros [[]|H]; exact H|now right].
  - intros first rest -> Nf. cbn [fold_left].
    rewrite (merge_into_fresh first [] Nf) by (intros x _ []).
    apply (fold_merge_into_keys rest ([] ++ first)).
Qed.

Lemma X17_witness :
  exists more,
    keys (dict_merge [DEFAULT_THEME_OPTIONS; user_theme_options])
    = keys DEFAULT_THEME_OPTIONS ++ more.
Proof.
  apply (proj2 (proj2 (X17_dict_merge_keys
                         [DEFAULT_THEME_OPTIONS; user_theme_options]))
           DEFAULT_THEME_OPTIONS [user_theme_options] eq_refl).
  repeat (constructor; [simpl; intuition discriminate|]). constructor.
Defined.

Lemma dict_merge_get_of_two a b k :
  NoDup (keys a) -> NoDup (keys b) ->
  dict_get k (dict_merge [a; b])
  = match dict_get k b, dict_get k a with
    | None, kept => kept
    | Some (PyDict dv), Some (PyDict da) =>
        Some (PyDict (dict_merge [da; dv]))
    | Some v, _ => Some v
    end.
Proof.
  intros Na Nb. rewrite dict_merge_fold. cbn [fold_left].
  rewrite (merge_into_fresh a [] Na) by (intros x _ []).
  cbn [app]. rewrite (merge_into_get k b a Nb).
  destruct (dict_get k b) as [v|]; [|reflexivity].
  unfold merged_value.
  destruct v as [| | | | l|dv]; try reflexivity.
  destruct (dict_get k a) as [[| | | | l|da]|]; reflexivity.
Qed.

(** X18.  For two dicts, each key once: a key the second dict lacks keeps
    the value of the first; a key it has takes its value, unless both
    values are dicts, which are merged in turn. *)
Theorem X18_dict_merge_lookup :
  forall a b k,
    NoDup (keys a) -> NoDup (keys b) ->
    dict_get k (dict_merge [a; b])
    = match dict_get k b, dict_get k a with
      | None, kept => kept
      | Some (PyDict dv), Some (PyDict da) =>
          Some (PyDict (dict_merge [da; dv]))
      | Some v, _ => Some v
      end.
Proof. intros a b k. apply dict_merge_get_of_two. Qed.

Lemma X18_witness :
  dict_get "font" (dict_merge [DEFAULT_THEME_OPTIONS; user_theme_options])
  = match dict_get "font" user_theme_options,
          dict_get "font" DEFAULT_THEME_OPTIONS with
    | None, kept => kept
    | Some (PyDict dv), Some (PyDict da) =>
        Some (PyDict (dict_merge [da; dv]))
    | Some v, _ => Some v
    end.
Proof.
  apply (X18_dict_merge_lookup DEFAULT_THEME_OPTIONS user_theme_options).
  - repeat (constructor; [simpl; intuition discriminate|]). constructor.
  - repeat (constructor; [simpl; intuition discriminate|]). constructor.
Defined.

(** X19.  Merging dicts one after the other is merging them at once:
    a further dict can be merged into the result of an earlier call; and
    the merge of a single dict, each key once, is that dict. *)
Theorem X19_dict_merge_composes :
  (forall dicts d,
      dict_merge (dicts ++ [d]) = dict_merge [dict_merge dicts; d]) /\
  (forall d, NoDup (keys d) -> dict_merge [d] = d).
Proof.
  split.
  - intros ds d. rewrite !dict_merge_fold.
    rewrite fold_left_app. cbn [fold_left].
    rewrite (merge_into_fresh (fold_left merge_into ds []) []);
      [reflexivity| |intros x _ []].
    apply (fold_merge_into_keys ds []). constructor.
  - intros d N. rewrite dict_merge_fold. cbn [fold_left].
    now rewrite (merge_into_fresh d [] N) by (intros x _ []).
Qed.

Lemma X19_witness : dict_merge [user_theme_options] = user_theme_options.
Proof.
  apply (proj2 X19_dict_merge_composes user_theme_options).
  repeat (constructor; [simpl; intuition discriminate|]). constructor.
Defined.

(** ** The options html_page_context reads *)

Lemma default_theme_options_keys : NoDup (keys DEFAULT_THEME_OPTIONS).
Proof.
  repeat (constructor; [simpl; intuition discriminate|]). constructor.
Qed.

(** X20.  Whatever options a project configures (each key once), the
    three options handed on for the global toc are the project's where it
    sets them and otherwise those of [DEFAULT_THEME_OPTIONS]: the
    fallbacks written at the [.get] calls are never used, so that
    [collapse] defaults to [True], not to the [False] written there. *)
Theorem X20_toctree_options_come_from_the_defaults :
  forall html_theme_options,
    NoDup (keys html_theme_options) ->
    toctree_options html_theme_options
    = (dict_get_default "globaltoc_collapse" (PyBool true)
         html_theme_options,
       dict_get_default "globaltoc_includehidden" (PyBool true)
         html_theme_options,
       dict_get_default "globaltoc_depth" (PyInt (-1)) html_theme_options).
Proof.
  intros o N. unfold toctree_options, dict_get_default.
  rewrite !(dict_merge_get_of_two _ _ _ default_theme_options_keys N).
  cbn [dict_get DEFAULT_THEME_OPTIONS String.eqb Ascii.eqb Bool.eqb].
  simpl.
  destruct (dict_get "globaltoc_collapse" o) as [[| | | | |]|];
    destruct (dict_get "globaltoc_includehidden" o) as [[| | | | |]|];
    destruct (dict_get "globaltoc_depth" o) as [[| | | | |]|];
    reflexivity.
Qed.

Lemma X20_witness :
  toctree_options user_theme_options
  = (dict_get_default "globaltoc_collapse" (PyBool true) user_theme_options,
     dict_get_default "globaltoc_includehidden" (PyBool true)
       user_theme_options,
     dict_get_default "globaltoc_depth" (PyInt (-1)) user_theme_options).
Proof.
  apply (X20_toctree_options_come_from_the_defaults user_theme_options).
  repeat (constructor; [simpl; intuition discriminate|]). constructor.
Defined.

(** ** The page's own toc *)

Lemma same_but_active_fresh (e b : bool) :
  same_but_active
    (if b then set_active true (new_TocVisitor e) else new_TocVisitor e)
    (new_TocVisitor e).
Proof. destruct b; repeat split. Qed.

Lemma walk_nodes_same_but_active w cs :
  Forall (fun c => forall v1 v2 i, same_but_active v1 v2 ->
            same_result_but_active (w v1 i c) (w v2 i c)) cs ->
  forall v1 v2 i, same_but_active v1 v2 ->
    same_result_but_active (walk_nodes w v1 i cs) (walk_nodes w v2 i cs).
Proof.
  induction 1 as [|c cs Hc _ IH]; intros v1 v2 i R; simpl; auto.
  specialize (Hc v1 v2 i R).
  destruct (w v1 i c) as [a|e1], (w v2 i c) as [b|e2]; simpl in *;
    auto; contradiction.
Qed.

Lemma walk_same_but_active n : forall v1 v2 parent self,
  same_but_active v1 v2 ->
  same_result_but_active (walk v1 parent self n) (walk v2 parent self n).
Proof.
  induction n as [t|cs IH|u cs IH|cs IH|b cs IH|b cs IH|cs IH|cs IH|cs IH]
    using node_tree_ind; intros v1 v2 parent self R;
    try (assert (K : forall a1 a2, same_but_active a1 a2 ->
            same_result_but_active (walk_kids self a1 cs)
                                   (walk_kids self a2 cs));
         [ intros a1 a2; apply walk_nodes_same_but_active;
           eapply Forall_impl; [|exact IH];
           intros c Hc x1 x2 i; apply Hc | ]);
    pose proof R as (Pc & Pt & Pu & Ph & Pe & Pl).
  - reflexivity.
  - reflexivity.
  - simpl. unfold visit_reference. simpl. rewrite <- Pe.
    destruct (_exclude_local v1) eqn:E;
      [destruct u as [u|]; [destruct (str_find "#" u =? -1)|]|];
      simpl; repeat split; simpl; congruence.
  - simpl. repeat split; auto.
  - rewrite !walk_bullet_list_eq. unfold visit_bullet_list.
    rewrite <- Pc.
    destruct (_prev_caption v1) as [prev|]; [|now apply K].
    destruct (same_object (caption_parent prev) parent); [|now apply K].
    simpl. rewrite <- Pe.
    destruct (walk_kids self _ cs) as [cv|x]; simpl; [|reflexivity].
    destruct (negb (_local_only cv)); repeat split; simpl; congruence.
  - rewrite !walk_list_item_eq. unfold visit_list_item. rewrite <- Pe.
    destruct (walk_kids self _ cs) as [cv|x]; simpl; [|reflexivity].
    destruct (_exclude_local v1 && _local_only cv) eqn:E; simpl;
      repeat split; simpl; congruence.
  - simpl. exact R.
  - now apply K.
  - now apply K.
Qed.

Lemma walk_kids_same_but_active self cs v1 v2 :
  same_but_active v1 v2 ->
  same_result_but_active (walk_kids self v1 cs) (walk_kids self v2 cs).
Proof.
  intros R. apply walk_nodes_same_but_active; auto.
  apply Forall_forall. intros c _ x1 x2 i. apply walk_same_but_active.
Qed.

(** X21.  For a local toc with a single item at the top (the page's
    title), the toc stored for the page is what the children of that item
    convert to: the title's own entry is left out, and a failure of the
    conversion is the same failure. *)
Theorem X21_page_toc_leaves_out_the_title :
  forall iscurrent_list iscurrent_item cs,
    page_toc (bullet_list iscurrent_list [list_item iscurrent_item cs])
    = _get_mkdocs_toc (paragraph cs) false.
Proof.
  intros b c cs. unfold page_toc, _get_mkdocs_toc, _get_mkdocs_toc_at.
  rewrite walk_bullet_list_no_caption by reflexivity.
  change (walk_kids [] (new_TocVisitor false) [list_item c cs])
    with (v <- walk (new_TocVisitor false) (Some []) [0%nat]
                 (list_item c cs) ;; Ok v).
  rewrite walk_list_item_eq. unfold visit_list_item.
  change (_exclude_local (new_TocVisitor false)) with false.
  change (walk (new_TocVisitor false) None [] (paragraph cs))
    with (walk_kids [] (new_TocVisitor false) cs).
  set (fv := if c then _ else _).
  pose proof (walk_kids_placement [0%nat] [] cs fv
                (prev_caption_fresh false c)) as P.
  pose proof (walk_kids_same_but_active [] cs fv (new_TocVisitor false)
                (same_but_active_fresh false c)) as A.
  destruct (walk_kids [0%nat] fv cs) as [c1|e1],
           (walk_kids [] fv cs) as [c2|e2],
           (walk_kids [] (new_TocVisitor false) cs) as [c3|e3];
    simpl in *; try contradiction; try congruence.
  unfold accumulated in P. injection P as _ _ _ Pch _ _.
  destruct A as (_ & _ & _ & Ach & _). congruence.
Qed.
